(** * Sequencer recovery: replaying the event log into the actor stores

    A shallow embedding of
    [packages/pds/src/scripts/sequencer-recovery/recoverer.ts]:
    the [Recoverer] class (page loop, event dispatch, commit replay, blob
    bookkeeping, genesis creation, account deletion) and [parseCommitEvt].

    Strings, revisions and content hashes are [string]s, byte arrays are
    lists of bytes, SQL tables and block maps are finite maps and sets
    keyed by their primary key, and code that can throw returns a
    [result]. *)

From Stdlib Require Import ZArith String List Lia.
From stdpp Require Import gmap strings list fin_maps.

#[local] Set Warnings "-clear-no-such-hyp".

(** ** Exceptions *)

(** A call either returns a value or throws.  Which error was thrown
    plays no part in what follows, so the thrown value is not kept. *)
Inductive result (A : Type) : Type :=
| Ok (a : A)
| Throw.
Arguments Ok {A} a.
Arguments Throw {A}.

#[export] Instance result_ret : MRet result := fun A a => Ok a.
#[export] Instance result_bind : MBind result := fun A B k m =>
  match m with
  | Ok a => k a
  | Throw => Throw
  end.

(** ** Identifiers and bytes *)

Abbreviation Did := string.
Abbreviation Cid := string.
Abbreviation Rev := string.
Abbreviation Bytes := (list Byte.byte).
Abbreviation BlockMap := (gmap string (list Byte.byte)).

(** [a >= b] on two JavaScript strings: the order of their code units. *)
Definition rev_geb (a b : Rev) : bool := String.leb b a.

(** ** Events of the sequencer *)

Inductive OpAction := OpCreate | OpUpdate | OpDelete.

Record CommitEvtOp := {
  op_action : OpAction;
  op_path : string;
  op_cid : option Cid;
}.

Record CommitEvt := {
  evt_repo : Did;
  evt_commit : Cid;
  evt_prev : option Cid;
  evt_rev : Rev;
  evt_since : option Rev;
  evt_blocks : Bytes;
  evt_ops : list CommitEvtOp;
}.

(** The event with other operations in place of its own. *)
Definition withOps (evt : CommitEvt) (ops : list CommitEvtOp) : CommitEvt :=
  {| evt_repo := evt_repo evt;
     evt_commit := evt_commit evt;
     evt_prev := evt_prev evt;
     evt_rev := evt_rev evt;
     evt_since := evt_since evt;
     evt_blocks := evt_blocks evt;
     evt_ops := ops |}.

Inductive AccountStatus :=
| Active | Takendown | Suspended | Deleted | Deactivated.

#[export] Instance AccountStatus_eq_dec : EqDecision AccountStatus.
Proof. solve_decision. Defined.

Record AccountEvt := {
  acc_did : Did;
  acc_status : option AccountStatus;
}.

Inductive SeqEvtBody :=
| EvtCommit (evt : CommitEvt)
| EvtAccount (evt : AccountEvt)
| EvtOther (type : string).

Record SeqEvt := {
  seq : Z;
  body : SeqEvtBody;
}.

(** ** Prepared writes *)

Record BlobRef := {
  blob_cid : Cid;
  blob_mimeType : string;
  blob_size : Z;
}.

Record DataKey := {
  collection : string;
  rkey : string;
}.

Record Car := {
  car_roots : list Cid;
  car_blocks : BlockMap;
}.

Section Writes.
Context {RepoRecord : Type}.

(** The payload of a prepared create or update: the record's address
    ([uri.toString()]), the decoded record and the blobs it refers to. *)
Record PreparedRecord := {
  w_uri : string;
  w_record : RepoRecord;
  w_blobs : list BlobRef;
}.

Record PreparedDelete := {
  d_uri : string;
}.

Inductive PreparedWrite :=
| WCreate (w : PreparedRecord)
| WUpdate (w : PreparedRecord)
| WDelete (d : PreparedDelete).

Record PrepareOpts := {
  po_did : Did;
  po_collection : string;
  po_rkey : string;
  po_record : RepoRecord;
  po_validate : bool;
}.

Record DeleteOpts := {
  do_did : Did;
  do_collection : string;
  do_rkey : string;
}.

Definition write_uri (w : PreparedWrite) : string :=
  match w with
  | WCreate c => w_uri c
  | WUpdate u => w_uri u
  | WDelete d => d_uri d
  end.

(** [write.blobs], present on creates and updates only. *)
Definition write_blobs (w : PreparedWrite) : list BlobRef :=
  match w with
  | WCreate c => w_blobs c
  | WUpdate u => w_blobs u
  | WDelete _ => []
  end.

Definition is_delete (w : PreparedWrite) : bool :=
  match w with WDelete _ => true | _ => false end.
End Writes.
Arguments PreparedRecord : clear implicits.
Arguments PreparedWrite : clear implicits.
Arguments PrepareOpts : clear implicits.

(** ** parseCommitEvt *)

Section ParseCommitEvt.
Context {RepoRecord : Type}.

(** Helpers of [@atproto/repo] and [../../repo]; all of them may throw. *)
Variable readCar : Bytes → result Car.
Variable parseDataKey : string → result DataKey.
Variable cborToLexRecord : Bytes → result RepoRecord.
Variable prepareCreate : PrepareOpts RepoRecord → result (PreparedRecord RepoRecord).
Variable prepareUpdate : PrepareOpts RepoRecord → result (PreparedRecord RepoRecord).
Variable prepareDelete : DeleteOpts → result PreparedDelete.

(** The bytes of the record an operation points to: [op.cid] when it
    is set, looked up in the blocks of the event's CAR. *)
Definition recordBytesOf (evtCar : Car) (op : CommitEvtOp) : option Bytes :=
  match op_cid op with
  | None => None
  | Some cid => car_blocks evtCar !! cid
  end.

(** The callback of [evt.ops.map]: [None] is the source's [undefined]. *)
Definition parseOp (did : Did) (evtCar : Car) (op : CommitEvtOp)
  : result (option (PreparedWrite RepoRecord)) :=
  key ← parseDataKey (op_path op);
  match op_action op with
  | OpDelete =>
      d ← prepareDelete {| do_did := did;
                           do_collection := collection key;
                           do_rkey := rkey key |};
      mret (Some (WDelete d))
  | action =>
      match op_cid op with
      | None => mret None
      | Some cid =>
          match car_blocks evtCar !! cid with
          | None => mret None
          | Some recordBytes =>
              record ← cborToLexRecord recordBytes;
              let opts := {| po_did := did;
                             po_collection := collection key;
                             po_rkey := rkey key;
                             po_record := record;
                             po_validate := false |} in
              match action with
              | OpCreate => w ← prepareCreate opts; mret (Some (WCreate w))
              | _ => w ← prepareUpdate opts; mret (Some (WUpdate w))
              end
          end
      end
  end.

(** [write] is what [op] is prepared to: by [prepareDelete] for a
    delete, and for a create or an update by [prepareCreate] or
    [prepareUpdate] on the record decoded from the bytes of the
    operation, with [validate: false]. *)
Definition preparedBy (did : Did) (evtCar : Car) (op : CommitEvtOp)
    (key : DataKey) (write : PreparedWrite RepoRecord) : Prop :=
  match write with
  | WDelete d =>
      op_action op = OpDelete ∧
      prepareDelete {| do_did := did;
                       do_collection := collection key;
                       do_rkey := rkey key |} = Ok d
  | WCreate w =>
      op_action op = OpCreate ∧
      ∃ bytes record,
        recordBytesOf evtCar op = Some bytes ∧
        cborToLexRecord bytes = Ok record ∧
        prepareCreate {| po_did := did;
                         po_collection := collection key;
                         po_rkey := rkey key;
                         po_record := record;
                         po_validate := false |} = Ok w
  | WUpdate w =>
      op_action op = OpUpdate ∧
      ∃ bytes record,
        recordBytesOf evtCar op = Some bytes ∧
        cborToLexRecord bytes = Ok record ∧
        prepareUpdate {| po_did := did;
                         po_collection := collection key;
                         po_rkey := rkey key;
                         po_record := record;
                         po_validate := false |} = Ok w
  end.

Definition parseCommitEvt (evt : CommitEvt)
  : result (list (PreparedWrite RepoRecord) * BlockMap) :=
  let did := evt_repo evt in
  evtCar ← readCar (evt_blocks evt);
  writesUnfiltered ← mapM (parseOp did evtCar) (evt_ops evt);
  let writes := omap id writesUnfiltered in
  mret (writes, car_blocks evtCar).

End ParseCommitEvt.

(** ** The actor store

    One SQLite database per account.  Of its tables the recoverer touches
    [record_blob] and [blob] itself (in [trackBlobs]); the root, the blocks
    and the record index are reached through the transactor's methods. *)

Record BlobRow := {
  row_mimeType : string;
  row_size : Z;
  row_createdAt : string;
}.

Record Storage := {
  repo_root : option (Cid * Rev);
  repo_block : BlockMap;
}.

(** [record_blob] has the two columns [(blobCid, recordUri)], which form
    its key; [blob] is keyed by [cid]. *)
Record BlobTables := {
  record_blob : gset (string * string);
  blob : gmap string BlobRow;
}.

Record CommitData := {
  commit_cid : Cid;
  commit_rev : Rev;
  commit_since : option Rev;
  commit_prev : option Cid;
  newBlocks : BlockMap;
  relevantBlocks : BlockMap;
  removedCids : gset string;
}.

Record RootDetailed := {
  root_cid : Cid;
  root_rev : Rev;
}.

Inductive OpLabel :=
| LApplyCommit
| LIndexWrites
| LDeleteDereferencedBlobs
| LInsertRecordBlob
| LInsertBlob
| LProcessWriteBlobs.

#[export] Instance OpLabel_eq_dec : EqDecision OpLabel.
Proof. solve_decision. Defined.

(** The steps that change block storage or the record index, and those
    of blob reference reconciliation. *)
Definition isMutation (l : OpLabel) : bool :=
  match l with
  | LApplyCommit | LIndexWrites => true
  | _ => false
  end.

Definition isReconciliation (l : OpLabel) : bool :=
  match l with
  | LDeleteDereferencedBlobs | LInsertRecordBlob | LInsertBlob => true
  | _ => false
  end.

(** In a run of steps, no step of reconciliation comes before a step of
    mutation. *)
Fixpoint reconciledAfter (labels : list OpLabel) : bool :=
  match labels with
  | [] => true
  | l :: rest =>
      (if isReconciliation l then forallb (λ l', negb (isMutation l')) rest else true)
      && reconciledAfter rest
  end.

Section ActorStore.
Context {RepoRecord : Type}.

Record ActorDb := {
  storage : Storage;
  record : gmap string (Rev * RepoRecord);
  blobs : BlobTables;
}.

Definition emptyDb : ActorDb :=
  {| storage := {| repo_root := None; repo_block := ∅ |};
     record := ∅;
     blobs := {| record_blob := ∅; blob := ∅ |} |}.

(** A database operation of the transactor is asynchronous: the call
    returns a promise and its statements run when the event loop gets to
    them.  It is a list of atomic steps, each one statement (or one
    helper taken as atomic) on the database of the open transaction. *)
Definition Step : Type := OpLabel * (ActorDb → result ActorDb).
Definition Async : Type := list Step.

Definition onStorage (f : Storage → result Storage) (db : ActorDb) : result ActorDb :=
  s ← f (storage db);
  mret {| storage := s; record := record db; blobs := blobs db |}.

Definition onRecord (f : gmap string (Rev * RepoRecord) → result (gmap string (Rev * RepoRecord)))
    (db : ActorDb) : result ActorDb :=
  r ← f (record db);
  mret {| storage := storage db; record := r; blobs := blobs db |}.

Definition onBlobs (f : BlobTables → result BlobTables) (db : ActorDb) : result ActorDb :=
  b ← f (blobs db);
  mret {| storage := storage db; record := record db; blobs := b |}.

(** Steps that touch one part of the database only. *)
Inductive onlyStorage : Step → Prop :=
| only_storage l f : onlyStorage (l, onStorage f).
Inductive onlyRecord : Step → Prop :=
| only_record l f : onlyRecord (l, onRecord f).
Inductive onlyBlobs : Step → Prop :=
| only_blobs l f : onlyBlobs (l, onBlobs f).

(** Steps run in the order the event loop resumes them; a step that
    throws rejects the whole. *)
Fixpoint runSteps (steps : list Step) (db : ActorDb) : result ActorDb :=
  match steps with
  | [] => mret db
  | s :: rest => db' ← s.2 db; runSteps rest db'
  end.

(** The next step of the [i]-th operation, if it has one left. *)
Fixpoint resume (i : nat) (ops : list Async) {struct ops}
  : option (Step * list Async) :=
  match ops with
  | [] => None
  | op :: ops' =>
      match i with
      | O => match op with
             | [] => None
             | s :: op' => Some (s, op' :: ops')
             end
      | S i' => match resume i' ops' with
                | Some (s, rest) => Some (s, op :: rest)
                | None => None
                end
      end
  end.

(** [Promise.all(ops)]: the operations are all in flight; [sched] is the
    order in which the event loop resumes them, one step at a time, and
    what is left after it runs to the end.  Each operation keeps its own
    order. *)
Fixpoint interleave (sched : list nat) (ops : list Async) : list Step :=
  match sched with
  | [] => concat ops
  | i :: sched' =>
      match resume i ops with
      | Some (s, ops') => s :: interleave sched' ops'
      | None => interleave sched' ops
      end
  end.

Definition promiseAll (sched : list nat) (ops : list Async) (db : ActorDb)
  : result ActorDb :=
  runSteps (interleave sched ops) db.

(** Two steps commute when either order leaves the same database, or
    throws. *)
Definition commute (s1 s2 : Step) : Prop :=
  ∀ db, (s1.2 db ≫= s2.2) = (s2.2 db ≫= s1.2).

(** Operations are independent when the steps of any two of them
    commute. *)
Definition independent (ops : list Async) : Prop :=
  ∀ i j a b sa sb,
    i ≠ j → ops !! i = Some a → ops !! j = Some b →
    sa ∈ a → sb ∈ b → commute sa sb.

(** *** Methods of the transactor *)

(** Modelled from the spec: [repo.storage.getRootDetailed] is not under
    src/.  "Read the repository's current stored revision"; a repository
    that has no commit yet has none to read. *)
Definition getRootDetailed (db : ActorDb) : result RootDetailed :=
  match repo_root (storage db) with
  | Some (c, r) => mret {| root_cid := c; root_rev := r |}
  | None => Throw
  end.

(** What applying a commit does to the root and the blocks. *)
Definition applyCommitTo (commit : CommitData) (s : Storage) : Storage :=
  {| repo_root := Some (commit_cid commit, commit_rev commit);
     repo_block := filter (λ kv, kv.1 ∉ removedCids commit)
                          (repo_block s ∪ newBlocks commit) |}.

(** Modelled from the spec: [repo.storage.applyCommit] is not under
    src/.  The commit becomes the stored head and revision, its new
    blocks are added to block storage and its removed hashes taken out.
    The second argument says whether this is the first commit of the
    repository; the state that results is the same either way. *)
Definition applyCommit (commit : CommitData) (isCreate : bool) : Async :=
  [(LApplyCommit, onStorage (λ s, mret (applyCommitTo commit s)))].

(** What one prepared write does to the record index. *)
Definition indexWrite (rev : Rev) (idx : gmap string (Rev * RepoRecord))
    (w : PreparedWrite RepoRecord) : gmap string (Rev * RepoRecord) :=
  match w with
  | WCreate c => <[w_uri c := (rev, w_record c)]> idx
  | WUpdate u => <[w_uri u := (rev, w_record u)]> idx
  | WDelete d => delete (d_uri d) idx
  end.

(** Modelled from the spec: [repo.indexWrites] is not under src/.  The
    record index is updated from the prepared writes: a create or an
    update stores the record under its address, a delete removes it. *)
Definition indexWrites (writes : list (PreparedWrite RepoRecord)) (rev : Rev) : Async :=
  [(LIndexWrites, onRecord (λ idx, mret (foldl (indexWrite rev) idx writes)))].

(** The address of a record that a write updates or deletes. *)
Definition dereferencedUri (w : PreparedWrite RepoRecord) : option string :=
  match w with
  | WCreate _ => None
  | WUpdate u => Some (w_uri u)
  | WDelete d => Some (d_uri d)
  end.

Definition dereferencedUris (writes : list (PreparedWrite RepoRecord)) : gset string :=
  list_to_set (omap dereferencedUri writes).

(** The blobs the created and updated records of the writes refer to. *)
Definition newBlobCids (writes : list (PreparedWrite RepoRecord)) : gset string :=
  list_to_set (blob_cid <$> (writes ≫= write_blobs)).

(** Modelled from the spec: [repo.blob.deleteDereferencedBlobs] is not
    under src/.  "Unreference blobs that are no longer pointed to by any
    surviving record": the association rows of the records that the
    writes update or delete go, and so does the metadata row of every
    blob those rows named that no remaining row and no new or updated
    record of the writes refers to.  The second argument, [true] in the
    source, leaves the blob store alone. *)
Definition deleteDereferencedBlobs (writes : list (PreparedWrite RepoRecord))
    (t : BlobTables) : BlobTables :=
  let uris := dereferencedUris writes in
  let deleted := filter (λ row, row.2 ∈ uris) (record_blob t) in
  let remaining := filter (λ row, row.2 ∉ uris) (record_blob t) in
  let cidsToKeep : gset string := newBlobCids writes ∪ set_map fst remaining in
  let cidsToDelete : gset string := set_map fst deleted ∖ cidsToKeep in
  {| record_blob := remaining;
     blob := filter (λ kv, kv.1 ∉ cidsToDelete) (blob t) |}.

(** *** trackBlobs *)

(** [insertInto('record_blob').values(..).onConflict(oc => oc.doNothing())] *)
Definition insertRecordBlob (blobCid recordUri : string) (t : BlobTables) : BlobTables :=
  if decide ((blobCid, recordUri) ∈ record_blob t) then t
  else {| record_blob := {[ (blobCid, recordUri) ]} ∪ record_blob t;
          blob := blob t |}.

(** [insertInto('blob').values(..).onConflict(oc => oc.doNothing())] *)
Definition insertBlob (cid : string) (row : BlobRow) (t : BlobTables) : BlobTables :=
  match blob t !! cid with
  | Some _ => t
  | None => {| record_blob := record_blob t; blob := <[cid := row]> (blob t) |}
  end.

Definition trackBlob (now : string) (uri : string) (b : BlobRef) : Async :=
  [ (LInsertRecordBlob, onBlobs (λ t, mret (insertRecordBlob (blob_cid b) uri t)));
    (LInsertBlob, onBlobs (λ t, mret (insertBlob (blob_cid b)
                                        {| row_mimeType := blob_mimeType b;
                                           row_size := blob_size b;
                                           row_createdAt := now |} t))) ].

(** The body of the loop over the writes. *)
Definition trackWrite (now : string) (write : PreparedWrite RepoRecord) : Async :=
  match write with
  | WCreate w | WUpdate w => w_blobs w ≫= trackBlob now (w_uri w)
  | WDelete _ => []
  end.

(** [now] is [store.repo.now], the time the transactor was opened. *)
Definition trackBlobs (now : string) (writes : list (PreparedWrite RepoRecord)) : Async :=
  (LDeleteDereferencedBlobs, onBlobs (λ t, mret (deleteDereferencedBlobs writes t)))
  :: (writes ≫= trackWrite now).

(** What [trackBlobs] comes to on the blob tables when nothing runs in
    between its steps: the rows it upserts, one per blob of a create or
    an update, in the order of the two loops. *)
Definition blobUpserts (writes : list (PreparedWrite RepoRecord)) : list (string * BlobRef) :=
  writes ≫= λ write,
    match write with
    | WCreate w | WUpdate w => (λ b, (w_uri w, b)) <$> w_blobs w
    | WDelete _ => []
    end.

(** The association row of an upsert. *)
Definition associationOf (ub : string * BlobRef) : string * string :=
  (blob_cid ub.2, ub.1).

Definition upsertBlob (now : string) (t : BlobTables) (ub : string * BlobRef) : BlobTables :=
  insertBlob (blob_cid ub.2)
    {| row_mimeType := blob_mimeType ub.2;
       row_size := blob_size ub.2;
       row_createdAt := now |}
    (insertRecordBlob (blob_cid ub.2) ub.1 t).

Definition trackedBlobs (now : string) (writes : list (PreparedWrite RepoRecord))
    (t : BlobTables) : BlobTables :=
  foldl (upsertBlob now) (deleteDereferencedBlobs writes t) (blobUpserts writes).

Definition setBlobs (db : ActorDb) (t : BlobTables) : ActorDb :=
  {| storage := storage db; record := record db; blobs := t |}.

End ActorStore.
Arguments ActorDb : clear implicits.
Arguments Step : clear implicits.
Arguments Async : clear implicits.

(** ** The world the recoverer acts on *)

Section World.
Context {RepoRecord : Type}.

(** An actor store on disk: the directory of [getLocation(did)] with the
    signing key and the database.  A keypair is identified by its rank
    among the keypairs generated so far. *)
Record Actor := {
  keypair : nat;
  db : ActorDb RepoRecord;
}.

Record World := {
  actors : gmap string Actor;
  accounts : gset string;
  keypairs : nat;
}.

(** [Secp256k1Keypair.create({ exportable: true })] *)
Definition createKeypair (w : World) : nat * World :=
  (keypairs w,
   {| actors := actors w; accounts := accounts w; keypairs := S (keypairs w) |}).

(** Modelled from the spec: [ActorStore.exists] is not under src/
    ([accountExists] of the spec's account store interface). *)
Definition actorExists (did : Did) (w : World) : bool :=
  bool_decide (is_Some (actors w !! did)).

(** Modelled from the spec: [ActorStore.create] is not under src/.  It
    initialises an empty repository, with its signing key, for an account
    that has none. *)
Definition actorCreate (did : Did) (kp : nat) (w : World) : result World :=
  if actorExists did w then Throw
  else mret {| actors := <[did := {| keypair := kp; db := emptyDb |}]> (actors w);
               accounts := accounts w;
               keypairs := keypairs w |}.

(** Modelled from the spec: [ActorStore.transact] is not under src/.
    Atomic access to one account's repository: what [fn] did is kept
    when it returns and rolled back when it throws. *)
Definition transact (did : Did) (fn : ActorDb RepoRecord → result (ActorDb RepoRecord))
    (w : World) : result World :=
  match actors w !! did with
  | None => Throw
  | Some a =>
      db' ← fn (db a);
      mret {| actors := <[did := {| keypair := keypair a; db := db' |}]> (actors w);
              accounts := accounts w;
              keypairs := keypairs w |}
  end.

(** Modelled from the spec: [rmIfExists], of [@atproto/common], is not
    under src/.  [rmIfExists(directory, true)] on the directory that
    [getLocation(did)] gives removes the account's storage location and
    tolerates that it is already absent. *)
Definition rmIfExists (did : Did) (w : World) : World :=
  {| actors := delete did (actors w);
     accounts := accounts w;
     keypairs := keypairs w |}.

(** Modelled from the spec: [AccountManager.deleteAccount] is not under
    src/; it removes the account-management record. *)
Definition deleteAccount (did : Did) (w : World) : World :=
  {| actors := actors w;
     accounts := accounts w ∖ {[ did ]};
     keypairs := keypairs w |}.

(** The world after a keypair was generated and an actor store with
    database [d] created for [did]. *)
Definition withNewActor (w : World) (did : Did) (d : ActorDb RepoRecord) : World :=
  {| actors := <[did := {| keypair := keypairs w; db := d |}]> (actors w);
     accounts := accounts w;
     keypairs := S (keypairs w) |}.

(** The database of a repository whose one commit is the event's. *)
Definition genesisDb (evt : CommitEvt) (writes : list (PreparedWrite RepoRecord))
    (blocks : BlockMap) (bt : BlobTables) : ActorDb RepoRecord :=
  {| storage := {| repo_root := Some (evt_commit evt, evt_rev evt);
                   repo_block := blocks |};
     record := foldl (indexWrite (evt_rev evt)) ∅ writes;
     blobs := bt |}.

End World.
Arguments Actor : clear implicits.
Arguments World : clear implicits.

(** ** Tasks, the per-user queues and the event loop *)

Inductive Outcome := Fulfilled | Rejected.

(** The two closures handed to [queues.addToUser]. *)
Inductive Task :=
| CommitTask (evt : CommitEvt)
| DeleteAccountTask (did : Did).

(** What the source leaves to the runtime: which loaded task runs next,
    the time a transactor is opened at, and the order in which the
    operations of a [Promise.all] are resumed. *)
Record EventLoop := {
  pick : list (Did * Task) → nat;
  clock : list (Did * Task) → string;
  resumptions : CommitEvt → list nat;
}.

(** Modelled from the spec: [UserQueues] is not under src/.  [addToKey]
    appends the task to its key's FIFO and never blocks; tasks of one key
    run in enqueue order; [onEmpty] suspends the caller until the number
    of loaded tasks drops to a low-water mark; [processAll] until every
    task has completed.  A task runs as one unit here. *)
Record UserQueues := {
  concurrency : Z;
  loaded : list (Did * Task);
}.

(** Modelled from the spec: the constructor of [UserQueues]. *)
Definition newUserQueues (concurrency : Z) : UserQueues :=
  {| concurrency := concurrency; loaded := [] |}.

(** Modelled from the spec: [UserQueues.addToUser] appends the task to
    the FIFO of its key and never blocks the caller. *)
Definition addToUser (did : Did) (task : Task) (q : UserQueues) : UserQueues :=
  {| concurrency := concurrency q; loaded := loaded q ++ [(did, task)] |}.

(** Modelled from the spec: tasks of one key run in enqueue order, so
    the [i]-th loaded task may start when no earlier one has its key. *)
Definition isReady (l : list (Did * Task)) (i : nat) : bool :=
  match l !! i with
  | Some (did, _) => bool_decide (did ∉ (take i l).*1)
  | None => false
  end.

(** The task that runs next: the one the event loop picks when it may
    start, the oldest otherwise. *)
Definition nextTask (loop : EventLoop) (l : list (Did * Task)) : nat :=
  if isReady l (pick loop l) then pick loop l else 0.

(** The tasks one event of the log gives rise to. *)
Definition tasksOf (evt : SeqEvt) : list (Did * Task) :=
  match body evt with
  | EvtCommit e => [(evt_repo e, CommitTask e)]
  | EvtAccount e =>
      if decide (acc_status e = Some Deleted)
      then [(acc_did e, DeleteAccountTask (acc_did e))]
      else []
  | EvtOther _ => []
  end.

Record SeqRangeOpts := {
  earliestSeq : Z;
  limit : Z;
}.

Record Recoverer := {
  cursor : Z;
  queues : UserQueues;
}.

Inductive RunResult {W : Type} :=
| Returned (r : Recoverer) (w : W)
| Failed (r : Recoverer) (w : W)
| StillRunning (r : Recoverer) (w : W).
Arguments RunResult : clear implicits.

Section Recoverer.
Context {RepoRecord : Type}.

Variable readCar : Bytes → result Car.
Variable parseDataKey : string → result DataKey.
Variable cborToLexRecord : Bytes → result RepoRecord.
Variable prepareCreate : PrepareOpts RepoRecord → result (PreparedRecord RepoRecord).
Variable prepareUpdate : PrepareOpts RepoRecord → result (PreparedRecord RepoRecord).
Variable prepareDelete : DeleteOpts → result PreparedDelete.

(** [repo.formatCommit(writes)] reads the repository and may throw; of
    the commit it returns, the source replaces the blocks, the head and
    the revision. *)
Variable formatCommit :
  ActorDb RepoRecord → list (PreparedWrite RepoRecord) → result CommitData.

(** [repo.blob.processWriteBlobs(rev, writes)] works on the blob tables
    and may throw. *)
Variable processWriteBlobs :
  Rev → list (PreparedWrite RepoRecord) → BlobTables → result BlobTables.

(** [sequencer.requestSeqRange] *)
Variable requestSeqRange : SeqRangeOpts → result (list SeqEvt).

Variable loop : EventLoop.
Variable lowWaterMark : nat.

Abbreviation parseCommitEvt :=
  (parseCommitEvt readCar parseDataKey cborToLexRecord
                  prepareCreate prepareUpdate prepareDelete).

(** *** processRepoCreation *)

Definition genesisCommit (evt : CommitEvt) (blocks : BlockMap) : CommitData :=
  {| commit_cid := evt_commit evt;
     commit_rev := evt_rev evt;
     commit_since := evt_since evt;
     commit_prev := evt_prev evt;
     newBlocks := blocks;
     relevantBlocks := ∅;
     removedCids := ∅ |}.

(** The three promises [processRepoCreation] hands to [Promise.all]. *)
Definition genesisOps (commit : CommitData)
    (writes : list (PreparedWrite RepoRecord)) : list (Async RepoRecord) :=
  [ applyCommit commit true;
    indexWrites writes (commit_rev commit);
    [(LProcessWriteBlobs,
      onBlobs (processWriteBlobs (commit_rev commit) writes))] ].

Definition processRepoCreation (evt : CommitEvt)
    (writes : list (PreparedWrite RepoRecord)) (blocks : BlockMap)
    (w : World RepoRecord) : World RepoRecord * Outcome :=
  let did := evt_repo evt in
  let '(keypair, w1) := createKeypair w in
  match actorCreate did keypair w1 with
  | Throw => (w1, Rejected)
  | Ok w2 =>
      let commit := genesisCommit evt blocks in
      match transact did
              (promiseAll (resumptions loop evt) (genesisOps commit writes))
              w2 with
      | Throw => (w2, Rejected)
      | Ok w3 => (w3, Fulfilled)
      end
  end.

(** *** processCommit *)

(** The three promises [processCommit] hands to [Promise.all]. *)
Definition replayOps (now : string) (commit : CommitData)
    (writes : list (PreparedWrite RepoRecord)) : list (Async RepoRecord) :=
  [ applyCommit commit false;
    indexWrites writes (commit_rev commit);
    trackBlobs now writes ].

(** The commit [processCommit] builds: the one [formatCommit] returned
    with the event's blocks, head and revision put in. *)
Definition replayedCommit (evt : CommitEvt) (blocks : BlockMap)
    (commit : CommitData) : CommitData :=
  {| commit_cid := evt_commit evt;
     commit_rev := evt_rev evt;
     commit_since := commit_since commit;
     commit_prev := commit_prev commit;
     newBlocks := blocks;
     relevantBlocks := relevantBlocks commit;
     removedCids := removedCids commit |}.

(** The labels of the steps of the three, in the order they run in. *)
Definition replayTrace (now : string) (evt : CommitEvt) (commit : CommitData)
    (writes : list (PreparedWrite RepoRecord)) : list OpLabel :=
  (interleave (resumptions loop evt) (replayOps now commit writes)).*1.

(** The callback given to [actorStore.transact] in [processCommit]. *)
Definition replayCommit (now : string) (evt : CommitEvt)
    (writes : list (PreparedWrite RepoRecord)) (blocks : BlockMap)
    (actorTxn : ActorDb RepoRecord) : result (ActorDb RepoRecord) :=
  root ← getRootDetailed actorTxn;
  if rev_geb (root_rev root) (evt_rev evt) then mret actorTxn
  else
    commit ← formatCommit actorTxn writes;
    let commit := replayedCommit evt blocks commit in
    promiseAll (resumptions loop evt) (replayOps now commit writes) actorTxn.

(** [await this.ctx.actorStore.transact(did, ...)] in [processCommit]. *)
Definition transactCommit (now : string) (evt : CommitEvt)
    (writes : list (PreparedWrite RepoRecord)) (blocks : BlockMap)
    (w : World RepoRecord) : World RepoRecord * Outcome :=
  match transact (evt_repo evt) (replayCommit now evt writes blocks) w with
  | Throw => (w, Rejected)
  | Ok w' => (w', Fulfilled)
  end.

(** The task [processCommit] enqueues.  The [catch] logs the DID and
    throws the error again. *)
Definition commitTask (now : string) (evt : CommitEvt)
    (w : World RepoRecord) : World RepoRecord * Outcome :=
  let did := evt_repo evt in
  match parseCommitEvt evt with
  | Throw => (w, Rejected)
  | Ok (writes, blocks) =>
      match evt_since evt with
      | None =>
          if actorExists did w then transactCommit now evt writes blocks w
          else processRepoCreation evt writes blocks w
      | Some _ => transactCommit now evt writes blocks w
      end
  end.

(** The task [processAccountEvt] enqueues. *)
Definition deleteAccountTask (did : Did)
    (w : World RepoRecord) : World RepoRecord * Outcome :=
  let w1 := rmIfExists did w in
  let w2 := deleteAccount did w1 in
  (w2, Fulfilled).

Definition runTask (now : string) (t : Task)
    (w : World RepoRecord) : World RepoRecord * Outcome :=
  match t with
  | CommitTask evt => commitTask now evt w
  | DeleteAccountTask did => deleteAccountTask did w
  end.

(** *** The queues at work *)

(** Modelled from the spec: one loaded task of [UserQueues] runs to its
    end. *)
Definition stepQueue (q : UserQueues) (w : World RepoRecord)
  : option (UserQueues * World RepoRecord * Outcome) :=
  let i := nextTask loop (loaded q) in
  match loaded q !! i with
  | None => None
  | Some (_, task) =>
      let '(w', o) := runTask (clock loop (loaded q)) task w in
      Some ({| concurrency := concurrency q; loaded := delete i (loaded q) |}, w', o)
  end.

(** Modelled from the spec: while the caller of [onEmpty] or
    [processAll] is suspended, tasks run until at most [low] are loaded
    or one of them fails. *)
Fixpoint drainTo (low fuel : nat) (q : UserQueues) (w : World RepoRecord)
  : UserQueues * World RepoRecord * Outcome :=
  match fuel with
  | O => (q, w, Fulfilled)
  | S fuel' =>
      if decide (length (loaded q) ≤ low) then (q, w, Fulfilled)
      else match stepQueue q w with
           | None => (q, w, Fulfilled)
           | Some (q', w', o) =>
               match o with
               | Rejected => (q', w', Rejected)
               | Fulfilled => drainTo low fuel' q' w'
               end
           end
  end.

(** Modelled from the spec: [UserQueues.onEmpty] suspends the caller
    until the number of loaded tasks drops to the low-water mark. *)
Definition onEmpty (q : UserQueues) (w : World RepoRecord) :=
  drainTo lowWaterMark (length (loaded q)) q w.

(** Modelled from the spec: [UserQueues.processAll] suspends the caller
    until every queued and running task has completed. *)
Definition processAll (q : UserQueues) (w : World RepoRecord) :=
  drainTo 0 (length (loaded q)) q w.

(** *** The Recoverer *)

Definition newRecoverer (opts_cursor opts_concurrency : Z) : Recoverer :=
  {| cursor := opts_cursor; queues := newUserQueues opts_concurrency |}.

Definition processAccountEvt (evt : AccountEvt) (r : Recoverer) : Recoverer :=
  if decide (acc_status evt ≠ Some Deleted) then r
  else
    let did := acc_did evt in
    {| cursor := cursor r;
       queues := addToUser did (DeleteAccountTask did) (queues r) |}.

Definition processCommit (evt : CommitEvt) (r : Recoverer) : Recoverer :=
  let did := evt_repo evt in
  {| cursor := cursor r;
     queues := addToUser did (CommitTask evt) (queues r) |}.

Definition processEvent (evt : SeqEvt) (r : Recoverer) : Recoverer :=
  let r1 := match body evt with
            | EvtAccount e => processAccountEvt e r
            | _ => r
            end in
  match body evt with
  | EvtCommit e => processCommit e r1
  | _ => r1
  end.

(** [page.forEach((evt) => this.processEvent(evt))] *)
Definition dispatchPage (page : list SeqEvt) (r : Recoverer) : Recoverer :=
  foldl (λ r evt, processEvent evt r) r page.

Definition loadNextPage (r : Recoverer) : result (Recoverer * bool) :=
  page ← requestSeqRange {| earliestSeq := cursor r; limit := 5000 |};
  let r1 := dispatchPage page r in
  match last page with
  | None => mret (r1, true)
  | Some lastEvt =>
      mret ({| cursor := seq lastEvt; queues := queues r1 |}, false)
  end.

(** [await this.queues.processAll()] at the end of [run]. *)
Definition flush (r : Recoverer) (w : World RepoRecord) : RunResult (World RepoRecord) :=
  let '(q, w', o) := processAll (queues r) w in
  let r' := {| cursor := cursor r; queues := q |} in
  match o with
  | Fulfilled => Returned r' w'
  | Rejected => Failed r' w'
  end.

(** [run]: [fuel] bounds the number of pages loaded. *)
Fixpoint run (fuel : nat) (r : Recoverer) (w : World RepoRecord)
  : RunResult (World RepoRecord) :=
  match fuel with
  | O => StillRunning r w
  | S fuel' =>
      match loadNextPage r with
      | Throw => Failed r w
      | Ok (r1, done) =>
          let '(q, w1, o) := onEmpty (queues r1) w in
          let r2 := {| cursor := cursor r1; queues := q |} in
          match o with
          | Rejected => Failed r2 w1
          | Fulfilled => if done then flush r2 w1 else run fuel' r2 w1
          end
      end
  end.

End Recoverer.

(** ** A concrete instance

    Stand-ins for what the recoverer calls but does not define, small
    enough to run, and the event logs of the examples of section 8 of the
    specification. *)

Module Scenario.

(** A record: its [$type] and the blobs it embeds. *)
Record LexRecord := {
  rec_type : string;
  rec_blobs : list BlobRef;
}.

Definition avatar : BlobRef :=
  {| blob_cid := "bafk-avatar"; blob_mimeType := "image/png"; blob_size := 1024 |}.

(** A CAR of one-byte blocks, the block of byte [b] under ["bafy" ++ b]. *)
Definition readCar (bytes : Bytes) : result Car :=
  mret {| car_roots := [];
          car_blocks := list_to_map
            ((λ b, ("bafy" +:+ String (Ascii.ascii_of_byte b) "", [b])) <$> bytes) |}.

Fixpoint splitSlash (acc : string) (s : string) : list string :=
  match s with
  | EmptyString => [acc]
  | String c s' =>
      if Ascii.eqb c (Ascii.ascii_of_byte Byte.x2f) then acc :: splitSlash "" s'
      else splitSlash (acc +:+ String c "") s'
  end.

Definition parseDataKey (key : string) : result DataKey :=
  match splitSlash "" key with
  | [c; r] => mret {| collection := c; rkey := r |}
  | _ => Throw
  end.

Definition cborToLexRecord (bytes : Bytes) : result LexRecord :=
  match bytes with
  | [Byte.x61] => mret {| rec_type := "app.bsky.feed.post"; rec_blobs := [] |}
  | [Byte.x62] => mret {| rec_type := "app.bsky.actor.profile"; rec_blobs := [avatar] |}
  | [Byte.x63] => mret {| rec_type := "com.example.other"; rec_blobs := [] |}
  | _ => Throw
  end.

Definition makeUri (did collection rkey : string) : string :=
  "at://" +:+ did +:+ "/" +:+ collection +:+ "/" +:+ rkey.

(** The check [validate] asks for: the record is of the collection it
    is written to. *)
Definition validRecord (collection : string) (r : LexRecord) : bool :=
  String.eqb (rec_type r) collection.

(** Modelled from the spec: [prepareCreate] and [prepareUpdate] are not
    under src/.  A prepared create or update carries the address, the
    decoded record and the blobs the record refers to; the record is
    checked only when [validate] is set, and the call throws when the
    check fails. *)
Definition prepareRecord (o : PrepareOpts LexRecord) : result (PreparedRecord LexRecord) :=
  if po_validate o && negb (validRecord (po_collection o) (po_record o)) then Throw
  else mret {| w_uri := makeUri (po_did o) (po_collection o) (po_rkey o);
               w_record := po_record o;
               w_blobs := rec_blobs (po_record o) |}.

Definition prepareDelete (o : DeleteOpts) : result PreparedDelete :=
  mret {| d_uri := makeUri (do_did o) (do_collection o) (do_rkey o) |}.

Definition formatCommit (db : ActorDb LexRecord)
    (writes : list (PreparedWrite LexRecord)) : result CommitData :=
  mret {| commit_cid := "";
          commit_rev := "";
          commit_since := snd <$> repo_root (storage db);
          commit_prev := fst <$> repo_root (storage db);
          newBlocks := ∅;
          relevantBlocks := ∅;
          removedCids := ∅ |}.

Definition processWriteBlobs (rev : Rev) (writes : list (PreparedWrite LexRecord))
    (t : BlobTables) : result BlobTables :=
  mret (foldl (λ t ub, insertRecordBlob (blob_cid ub.2) ub.1 t) t (blobUpserts writes)).

Definition requestSeqRange (log : list SeqEvt) (opts : SeqRangeOpts) : result (list SeqEvt) :=
  mret (take (Z.to_nat (limit opts))
             (filter (λ evt, (earliestSeq opts < seq evt)%Z) log)).

Definition loop : EventLoop :=
  {| pick := λ _, 0%nat;
     clock := λ _, "2024-05-01T00:00:00.000Z";
     resumptions := λ _, [2; 0; 2; 1]%nat |}.

Definition parseCommitEvt :=
  parseCommitEvt readCar parseDataKey cborToLexRecord
                 prepareRecord prepareRecord prepareDelete.

Definition commitTask :=
  commitTask readCar parseDataKey cborToLexRecord
             prepareRecord prepareRecord prepareDelete
             formatCommit processWriteBlobs loop.

Definition run (log : list SeqEvt) :=
  run readCar parseDataKey cborToLexRecord
      prepareRecord prepareRecord prepareDelete
      formatCommit processWriteBlobs (requestSeqRange log) loop 0.

Definition alice : Did := "did:plc:alice".
Definition bob : Did := "did:plc:bob".

Definition emptyWorld : World LexRecord :=
  {| actors := ∅; accounts := {[ alice; bob ]}; keypairs := 0 |}.

(** Account A, genesis commit "r1" creating record X without blobs. *)
Definition createX : CommitEvt :=
  {| evt_repo := alice;
     evt_commit := "bafy-commit-1";
     evt_prev := None;
     evt_rev := "r1";
     evt_since := None;
     evt_blocks := [Byte.x61];
     evt_ops := [ {| op_action := OpCreate;
                     op_path := "app.bsky.feed.post/X";
                     op_cid := Some "bafya" |} ] |}.

(** Account A, commit "r2" deleting record X. *)
Definition deleteX : CommitEvt :=
  {| evt_repo := alice;
     evt_commit := "bafy-commit-2";
     evt_prev := Some "bafy-commit-1";
     evt_rev := "r2";
     evt_since := Some "r1";
     evt_blocks := [];
     evt_ops := [ {| op_action := OpDelete;
                     op_path := "app.bsky.feed.post/X";
                     op_cid := None |} ] |}.

(** A commit with a create that resolves, a create whose block is not
    in the CAR, an update without a hash and a delete. *)
Definition partial : CommitEvt :=
  {| evt_repo := alice;
     evt_commit := "bafy-commit-3";
     evt_prev := Some "bafy-commit-2";
     evt_rev := "r3";
     evt_since := Some "r2";
     evt_blocks := [Byte.x61];
     evt_ops := [ {| op_action := OpCreate;
                     op_path := "app.bsky.feed.post/A";
                     op_cid := Some "bafya" |};
                  {| op_action := OpCreate;
                     op_path := "app.bsky.feed.post/B";
                     op_cid := Some "bafyz" |};
                  {| op_action := OpUpdate;
                     op_path := "app.bsky.feed.post/C";
                     op_cid := None |};
                  {| op_action := OpDelete;
                     op_path := "app.bsky.feed.post/D";
                     op_cid := None |} ] |}.

(** A create in [app.bsky.feed.post] of a record of another type. *)
Definition mistyped : CommitEvt :=
  {| evt_repo := alice;
     evt_commit := "bafy-commit-4";
     evt_prev := Some "bafy-commit-3";
     evt_rev := "r4";
     evt_since := Some "r3";
     evt_blocks := [Byte.x63];
     evt_ops := [ {| op_action := OpCreate;
                     op_path := "app.bsky.feed.post/E";
                     op_cid := Some "bafyc" |} ] |}.

(** An update of the profile, whose record embeds a blob. *)
Definition setAvatar : CommitEvt :=
  {| evt_repo := alice;
     evt_commit := "bafy-commit-5";
     evt_prev := Some "bafy-commit-4";
     evt_rev := "r5";
     evt_since := Some "r4";
     evt_blocks := [Byte.x62];
     evt_ops := [ {| op_action := OpUpdate;
                     op_path := "app.bsky.actor.profile/self";
                     op_cid := Some "bafyb" |} ] |}.

Definition setAvatarWrites : list (PreparedWrite LexRecord) :=
  [ WUpdate {| w_uri := "at://did:plc:alice/app.bsky.actor.profile/self";
               w_record := {| rec_type := "app.bsky.actor.profile";
                              rec_blobs := [avatar] |};
               w_blobs := [avatar] |} ].

Definition twoEventLog : list SeqEvt :=
  [ {| seq := 1; body := EvtCommit createX |};
    {| seq := 2; body := EvtCommit deleteX |} ].

Definition bobDeleted : AccountEvt :=
  {| acc_did := bob; acc_status := Some Deleted |}.

Definition start : Recoverer := newRecoverer 0 10.

Definition createXWrites : list (PreparedWrite LexRecord) :=
  [ WCreate {| w_uri := "at://did:plc:alice/app.bsky.feed.post/X";
               w_record := {| rec_type := "app.bsky.feed.post"; rec_blobs := [] |};
               w_blobs := [] |} ].

Definition createXBlocks : BlockMap := {[ "bafya" := [Byte.x61] ]}.

Definition noBlobs : BlobTables := {| record_blob := ∅; blob := ∅ |}.

(** Alice's actor store and the world once [createX] is replayed. *)
Definition aliceAtR1 : Actor LexRecord :=
  {| keypair := 0; db := genesisDb createX createXWrites createXBlocks noBlobs |}.

Definition afterGenesis : World LexRecord :=
  withNewActor emptyWorld alice (genesisDb createX createXWrites createXBlocks noBlobs).

(** The first page of [twoEventLog] dispatched, and the queues drained. *)
Definition twoEventsDrained :=
  onEmpty readCar parseDataKey cborToLexRecord
          prepareRecord prepareRecord prepareDelete
          formatCommit processWriteBlobs loop 0
          (queues (dispatchPage twoEventLog start)) emptyWorld.

Definition noon : string := "2024-05-01T12:00:00.000Z".
Definition midnight : string := "2024-05-02T00:00:00.000Z".

End Scenario.

(** ** More of parseCommitEvt *)

(** An operation that yields a write when nothing throws: a delete, or a
    create or an update whose record bytes are in the CAR. *)
Definition resolvable (evtCar : Car) (op : CommitEvtOp) : bool :=
  match op_action op with
  | OpDelete => true
  | _ => bool_decide (is_Some (recordBytesOf evtCar op))
  end.

(** ** More of the page loop *)

(** Every event of a page has a sequence number above the cursor the
    page was asked from, and at most [bound]. *)
Definition pagesWithin (requestSeqRange : SeqRangeOpts → result (list SeqEvt))
    (bound : Z) : Prop :=
  ∀ c page evt,
    requestSeqRange {| earliestSeq := c; limit := 5000 |} = Ok page →
    evt ∈ page → (c < seq evt ≤ bound)%Z.

(** ** The output manager

    [packages/oauth/oauth-provider/src/output/output-manager.ts]: the
    negotiation of the locale of a page and the links of its head. *)

Module OutputManager.

Definition AVAILABLE_LOCALES : list string := ["en"; "fr"].

Definition isAvailableLocale (v : string) : bool :=
  bool_decide (v ∈ AVAILABLE_LOCALES).

(** The [for] loop of [negotiateLocale]: [None] when it ends, or breaks
    on ["*"], without a [return]. *)
Fixpoint negotiateLoop (desiredLocales : list string) : option string :=
  match desiredLocales with
  | [] => None
  | locale :: rest =>
      if String.eqb locale "*" then None
      else if isAvailableLocale locale then Some locale
      else negotiateLoop rest
  end.

Definition negotiateLocale (desiredLocales : option (list string)) : string :=
  match desiredLocales with
  | Some locales =>
      match negotiateLoop locales with
      | Some locale => locale
      | None => "en"
      end
  | None => "en"
  end.

(** The title of a link: a string, or an object of titles by locale. *)
Inductive LinkTitle :=
| TitleString (title : string)
| TitleByLocale (titles : gmap string string).

Record LinkDefinition := {
  link_rel : string;
  link_href : string;
  link_title : LinkTitle;
}.

(** [title] is [None] when the expression of the source is [undefined]. *)
Record LinkAttrs := {
  attr_href : string;
  attr_rel : string;
  attr_title : option string;
}.

(** [title[locale] || title.en]: the empty string is falsy. *)
Definition localizedTitle (titles : gmap string string) (locale : string) : option string :=
  match titles !! locale with
  | Some title => if String.eqb title "" then titles !! "en" else Some title
  | None => titles !! "en"
  end.

Section BuildLinks.

(** [isLinkRel], of [../lib/html]. *)
Variable isLinkRel : string → bool.

(** The callback of [links.map]: [None] is the source's [undefined]. *)
Definition linkAttrs (locale : string) (link : LinkDefinition) : option LinkAttrs :=
  if isLinkRel (link_rel link) then
    match link_title link with
    | TitleString title =>
        Some {| attr_href := link_href link;
                attr_rel := link_rel link;
                attr_title := Some title |}
    | TitleByLocale titles =>
        Some {| attr_href := link_href link;
                attr_rel := link_rel link;
                attr_title := localizedTitle titles locale |}
    end
  else None.

(** [this.links?.map(..).filter((v) => v != null)] *)
Definition buildLinks (links : option (list LinkDefinition)) (locale : string)
  : option (list LinkAttrs) :=
  match links with
  | None => None
  | Some links => Some (omap (linkAttrs locale) links)
  end.

End BuildLinks.

End OutputManager.

(** ** More cases

    Further stand-ins and events, for the properties beyond the
    specification's. *)

Module Cases.

(** A commit whose second operation has a path that is not a data key. *)
Definition badPath : CommitEvt :=
  {| evt_repo := Scenario.alice;
     evt_commit := "bafy-commit-6";
     evt_prev := Some "bafy-commit-5";
     evt_rev := "r6";
     evt_since := Some "r5";
     evt_blocks := [Byte.x61];
     evt_ops := [ {| op_action := OpCreate;
                     op_path := "app.bsky.feed.post/F";
                     op_cid := Some "bafya" |};
                  {| op_action := OpDelete;
                     op_path := "not-a-data-key";
                     op_cid := None |} ] |}.

(** A [processWriteBlobs] that throws. *)
Definition failingProcessWriteBlobs (rev : Rev)
    (writes : list (PreparedWrite Scenario.LexRecord)) (t : BlobTables)
  : result BlobTables := Throw.

(** The task of a commit event when [processWriteBlobs] throws. *)
Definition commitTaskWithoutBlobs :=
  commitTask Scenario.readCar Scenario.parseDataKey Scenario.cborToLexRecord
             Scenario.prepareRecord Scenario.prepareRecord Scenario.prepareDelete
             Scenario.formatCommit failingProcessWriteBlobs Scenario.loop.

(** Two creates that embed the same blob under different media types. *)
Definition pngThenJpeg : list (PreparedWrite Scenario.LexRecord) :=
  [ WCreate {| w_uri := "at://did:plc:alice/app.bsky.feed.post/G";
               w_record := {| Scenario.rec_type := "app.bsky.feed.post";
                              Scenario.rec_blobs := [] |};
               w_blobs := [ {| blob_cid := "bafk-image";
                               blob_mimeType := "image/png";
                               blob_size := 10 |} ] |};
    WCreate {| w_uri := "at://did:plc:alice/app.bsky.feed.post/H";
               w_record := {| Scenario.rec_type := "app.bsky.feed.post";
                              Scenario.rec_blobs := [] |};
               w_blobs := [ {| blob_cid := "bafk-image";
                               blob_mimeType := "image/jpeg";
                               blob_size := 20 |} ] |} ].

(** Links of a customization: one with a title by locale, one whose
    French title is empty, one whose [rel] is not a link relation. *)
Definition isLinkRel (rel : string) : bool :=
  bool_decide (rel ∈ ["canonical"; "help"; "privacy-policy"; "terms-of-service"]).

Definition links : list OutputManager.LinkDefinition :=
  [ {| OutputManager.link_rel := "help";
       OutputManager.link_href := "https://example.com/help";
       OutputManager.link_title :=
         OutputManager.TitleByLocale {[ "en" := "Help"; "fr" := "Aide" ]} |};
    {| OutputManager.link_rel := "stylesheet";
       OutputManager.link_href := "https://example.com/x.css";
       OutputManager.link_title := OutputManager.TitleString "Style" |};
    {| OutputManager.link_rel := "privacy-policy";
       OutputManager.link_href := "https://example.com/privacy";
       OutputManager.link_title :=
         OutputManager.TitleByLocale {[ "en" := "Privacy"; "fr" := "" ]} |} ].

End Cases.

(** * Properties *)

(** ** Promise.all over independent operations *)

Section Interleaving.
Context {RepoRecord : Type}.
Implicit Types (db : ActorDb RepoRecord) (s : Step RepoRecord).
Implicit Types (steps : list (Step RepoRecord)) (ops : list (Async RepoRecord)).

Lemma runSteps_app steps1 steps2 db :
  runSteps (steps1 ++ steps2) db = runSteps steps1 db ≫= runSteps steps2.
Proof.
  revert db; induction steps1 as [|s steps1 IH]; intros db; simpl; [done|].
  destruct (s.2 db) as [db'|]; simpl; [apply IH|done].
Qed.

Lemma runSteps_commute_past s steps rest db :
  Forall (commute s) steps →
  runSteps (s :: steps ++ rest) db = runSteps (steps ++ s :: rest) db.
Proof.
  intros Hall; revert db.
  induction Hall as [|s' steps Hs' _ IH]; intros db; [done|].
  change (runSteps (s :: (s' :: steps) ++ rest) db)
    with (s.2 db ≫= (λ db1, s'.2 db1 ≫= runSteps (steps ++ rest))).
  change (runSteps ((s' :: steps) ++ s :: rest) db)
    with (s'.2 db ≫= runSteps (steps ++ s :: rest)).
  specialize (Hs' db).
  destruct (s.2 db) as [db1|] eqn:E1, (s'.2 db) as [db2|] eqn:E2; simpl in *.
  - rewrite <- IH. simpl.
    destruct (s'.2 db1) as [db3|], (s.2 db2) as [db4|]; simpl;
      congruence.
  - destruct (s'.2 db1); [discriminate|done].
  - rewrite <- IH. simpl. destruct (s.2 db2); [discriminate|done].
  - done.
Qed.

Lemma resume_Some i ops s ops' :
  resume i ops = Some (s, ops') →
  ∃ op', ops !! i = Some (s :: op') ∧ ops' = <[i := op']> ops.
Proof.
  revert i s ops'; induction ops as [|op ops IH]; intros i s ops'; simpl; [done|].
  destruct i as [|i]; simpl.
  - destruct op as [|s0 op']; [done|]. intros [= <- <-]. by exists op'.
  - destruct (resume i ops) as [[s0 rest]|] eqn:E; [|done].
    intros [= <- <-]. destruct (IH _ _ _ E) as (op' & ? & ->). by exists op'.
Qed.

Lemma independent_resume i ops s ops' :
  independent ops → resume i ops = Some (s, ops') → independent ops'.
Proof.
  intros Hind (op' & Hi & ->)%resume_Some j k a b sa sb Hjk Ha Hb Hsa Hsb.
  assert (Hlt : (i < length ops)%nat) by (by eapply lookup_lt_Some).
  assert (∀ n c sc, <[i:=op']> ops !! n = Some c → sc ∈ c →
                    ∃ c', ops !! n = Some c' ∧ sc ∈ c') as Hback.
  { intros n c sc Hn Hsc. destruct (decide (n = i)) as [->|Hne].
    - rewrite list_lookup_insert_eq in Hn by done.
      injection Hn as <-. eexists; split; [done|]. by apply list_elem_of_further.
    - rewrite list_lookup_insert_ne in Hn by done. eauto. }
  destruct (Hback _ _ _ Ha Hsa) as (a' & ? & ?).
  destruct (Hback _ _ _ Hb Hsb) as (b' & ? & ?).
  by eapply (Hind j k).
Qed.

Lemma runSteps_resume i ops s ops' db :
  independent ops → resume i ops = Some (s, ops') →
  runSteps (s :: concat ops') db = runSteps (concat ops) db.
Proof.
  intros Hind (op' & Hi & ->)%resume_Some.
  assert (Hlt : (i < length ops)%nat) by (by eapply lookup_lt_Some).
  rewrite <- (take_drop_middle ops i _ Hi) at 2.
  rewrite insert_take_drop by done.
  rewrite !concat_app. simpl.
  apply (runSteps_commute_past s (concat (take i ops)) (op' ++ concat (drop (S i) ops))).
  apply Forall_forall. intros s' Hs'.
  apply list_elem_of_In, in_concat in Hs' as (b & Hb%list_elem_of_In & Hsb%list_elem_of_In).
  apply list_elem_of_lookup in Hb as [j Hj].
  assert (j < i)%nat.
  { apply lookup_lt_Some in Hj. rewrite length_take in Hj. lia. }
  rewrite lookup_take_lt in Hj by done.
  apply (Hind i j (s :: op') b); [lia|done|done| |done].
  apply list_elem_of_here.
Qed.

(** Whatever order the event loop resumes independent operations in,
    the outcome is the one of running them one after the other. *)
Lemma promiseAll_independent sched ops db :
  independent ops → promiseAll sched ops db = runSteps (concat ops) db.
Proof.
  unfold promiseAll. revert ops db.
  induction sched as [|i sched IH]; intros ops db Hind; [done|].
  simpl. destruct (resume i ops) as [[s ops']|] eqn:E; [|by apply IH].
  rewrite <- (runSteps_resume _ _ _ _ db Hind E). simpl.
  destruct (s.2 db) as [db'|]; simpl; [|done].
  apply IH. by eapply independent_resume.
Qed.

End Interleaving.

(** ** The operations of a commit are independent *)

Section CommitOps.
Context {RepoRecord : Type}.
Implicit Types (db : ActorDb RepoRecord) (s : Step RepoRecord).
Implicit Types (writes : list (PreparedWrite RepoRecord)).

Lemma commute_sym s1 s2 : commute s1 s2 → commute s2 s1.
Proof. intros H db. symmetry. apply H. Qed.

Lemma commute_storage_record s1 s2 : onlyStorage s1 → onlyRecord s2 → commute s1 s2.
Proof.
  intros [l1 f] [l2 g] db. unfold onStorage, onRecord. simpl.
  destruct (f (storage db)) eqn:Ef, (g (record db)) eqn:Eg; simpl; rewrite ?Ef, ?Eg; done.
Qed.

Lemma commute_storage_blobs s1 s2 : onlyStorage s1 → onlyBlobs s2 → commute s1 s2.
Proof.
  intros [l1 f] [l2 g] db. unfold onStorage, onBlobs. simpl.
  destruct (f (storage db)) eqn:Ef, (g (blobs db)) eqn:Eg; simpl; rewrite ?Ef, ?Eg; done.
Qed.

Lemma commute_record_blobs s1 s2 : onlyRecord s1 → onlyBlobs s2 → commute s1 s2.
Proof.
  intros [l1 f] [l2 g] db. unfold onRecord, onBlobs. simpl.
  destruct (f (record db)) eqn:Ef, (g (blobs db)) eqn:Eg; simpl; rewrite ?Ef, ?Eg; done.
Qed.

Lemma independent_by_table (a b c : Async RepoRecord) :
  Forall onlyStorage a → Forall onlyRecord b → Forall onlyBlobs c →
  independent [a; b; c].
Proof.
  rewrite !Forall_forall. intros Ha Hb Hc i j x y sx sy Hij Hx Hy Hsx Hsy.
  destruct i as [|[|[|i]]], j as [|[|[|j]]]; simplify_eq/=;
    auto using commute_sym, commute_storage_record,
               commute_storage_blobs, commute_record_blobs.
Qed.

Lemma trackBlobs_onlyBlobs now writes : Forall onlyBlobs (trackBlobs now writes).
Proof.
  unfold trackBlobs. constructor; [constructor|].
  apply Forall_bind, Forall_forall. intros write _.
  destruct write as [w|w|d]; [| |constructor];
    apply Forall_bind, Forall_forall; intros b _;
    repeat constructor.
Qed.

Lemma replayOps_independent now commit writes :
  independent (replayOps now commit writes).
Proof.
  apply independent_by_table; [repeat constructor..|].
  apply trackBlobs_onlyBlobs.
Qed.

Lemma genesisOps_independent processWriteBlobs commit writes :
  independent (genesisOps processWriteBlobs commit writes).
Proof. apply independent_by_table; repeat constructor. Qed.

(** *** What the operations come to, run one after the other *)

Lemma runSteps_trackBlob now uri (bs : list BlobRef) db :
  runSteps (mbind (M:=list) (trackBlob now uri) bs) db
  = Ok (setBlobs db (foldl (upsertBlob now) (blobs db) ((λ b, (uri, b)) <$> bs))).
Proof.
  revert db; induction bs as [|b bs IH]; intros db; [by destruct db|].
  rewrite bind_cons, fmap_cons. simpl. rewrite IH. done.
Qed.

Lemma runSteps_upserts now writes db :
  runSteps (mbind (M:=list) (trackWrite now) writes) db
  = Ok (setBlobs db (foldl (upsertBlob now) (blobs db) (blobUpserts writes))).
Proof.
  unfold blobUpserts.
  revert db; induction writes as [|write writes IH]; intros db; [by destruct db|].
  rewrite !bind_cons, runSteps_app, foldl_app.
  destruct write as [w|w|d]; simpl; rewrite ?runSteps_trackBlob; simpl;
    rewrite IH; done.
Qed.

Lemma runSteps_trackBlobs now writes db :
  runSteps (trackBlobs now writes) db
  = Ok (setBlobs db (trackedBlobs now writes (blobs db))).
Proof.
  unfold trackBlobs. simpl. rewrite runSteps_upserts. done.
Qed.

(** Whatever the order of resumption, the callback of [processCommit]
    leaves the commit applied, the writes indexed and the blobs
    tracked. *)
Lemma promiseAll_replayOps sched now commit writes db :
  promiseAll sched (replayOps now commit writes) db
  = Ok {| storage := applyCommitTo commit (storage db);
          record := foldl (indexWrite (commit_rev commit)) (record db) writes;
          blobs := trackedBlobs now writes (blobs db) |}.
Proof.
  rewrite promiseAll_independent by apply replayOps_independent.
  change (concat (replayOps now commit writes))
    with (applyCommit commit false ++ indexWrites writes (commit_rev commit)
          ++ trackBlobs now writes ++ []).
  rewrite app_nil_r, !runSteps_app.
  transitivity
    (runSteps (trackBlobs now writes)
       {| storage := applyCommitTo commit (storage db);
          record := foldl (indexWrite (commit_rev commit)) (record db) writes;
          blobs := blobs db |}); [done|].
  by rewrite runSteps_trackBlobs.
Qed.

Lemma promiseAll_genesisOps sched processWriteBlobs commit writes db :
  promiseAll sched (genesisOps processWriteBlobs commit writes) db
  = (bt ← processWriteBlobs (commit_rev commit) writes (blobs db);
     mret {| storage := applyCommitTo commit (storage db);
             record := foldl (indexWrite (commit_rev commit)) (record db) writes;
             blobs := bt |}).
Proof.
  rewrite promiseAll_independent by apply genesisOps_independent.
  simpl. unfold onBlobs. simpl.
  by destruct (processWriteBlobs _ _ _).
Qed.

End CommitOps.

(** ** parseCommitEvt *)

Section ParseCommitEvtFacts.
Context {RepoRecord : Type}.
Variable readCar : Bytes → result Car.
Variable parseDataKey : string → result DataKey.
Variable cborToLexRecord : Bytes → result RepoRecord.
Variable prepareCreate : PrepareOpts RepoRecord → result (PreparedRecord RepoRecord).
Variable prepareUpdate : PrepareOpts RepoRecord → result (PreparedRecord RepoRecord).
Variable prepareDelete : DeleteOpts → result PreparedDelete.

Abbreviation parseOp' :=
  (parseOp parseDataKey cborToLexRecord prepareCreate prepareUpdate prepareDelete).
Abbreviation parseCommitEvt' :=
  (parseCommitEvt readCar parseDataKey cborToLexRecord
                  prepareCreate prepareUpdate prepareDelete).

Lemma mapM_result_app {A B} (f : A → result B) (l1 l2 : list A) :
  mapM f (l1 ++ l2) = (k1 ← mapM f l1; k2 ← mapM f l2; mret (k1 ++ k2)).
Proof.
  induction l1 as [|x l1 IH]; simpl.
  - by destruct (mapM f l2).
  - destruct (f x); simpl; [|done]. rewrite IH.
    destruct (mapM f l1); simpl; [|done]. by destruct (mapM f l2).
Qed.

Lemma mapM_result_Ok {A B} (f : A → result B) (l : list A) (k : list B) :
  mapM f l = Ok k → Forall2 (λ x y, f x = Ok y) l k.
Proof.
  revert k; induction l as [|x l IH]; intros k; simpl.
  - intros [= <-]. constructor.
  - destruct (f x) as [y|] eqn:Ex; simpl; [|done].
    destruct (mapM f l) as [k'|]; simpl; [|done].
    intros [= <-]. constructor; auto.
Qed.

(** An operation that is not a delete and whose record bytes are not to
    be had yields no write. *)
Lemma parseOp_unresolved did car op key :
  parseDataKey (op_path op) = Ok key →
  op_action op ≠ OpDelete →
  recordBytesOf car op = None →
  parseOp' did car op = Ok None.
Proof.
  unfold parseOp, recordBytesOf. intros -> Hact Hbytes. simpl.
  destruct (op_action op); [| |done];
    (destruct (op_cid op) as [cid|]; [by rewrite Hbytes|done]).
Qed.

Lemma parseOp_delete did car op :
  op_action op = OpDelete →
  parseOp' did car op
  = (key ← parseDataKey (op_path op);
     d ← prepareDelete {| do_did := did;
                          do_collection := collection key;
                          do_rkey := rkey key |};
     mret (Some (WDelete d))).
Proof. unfold parseOp. by intros ->. Qed.

(** Where the write of an operation comes from. *)
Lemma parseOp_Some did car op write :
  parseOp' did car op = Ok (Some write) →
  ∃ key, parseDataKey (op_path op) = Ok key ∧
         preparedBy cborToLexRecord prepareCreate prepareUpdate prepareDelete
                    did car op key write.
Proof.
  unfold parseOp, preparedBy, recordBytesOf.
  destruct (parseDataKey (op_path op)) as [key|]; simpl; [|done].
  intros H. exists key. split; [done|].
  destruct (op_action op) eqn:Hact.
  - destruct (op_cid op) as [cid|]; [|done].
    destruct (car_blocks car !! cid) as [bytes|]; [|done].
    destruct (cborToLexRecord bytes) as [record|] eqn:Hrec; simpl in H; [|done].
    destruct (prepareCreate _) as [w|] eqn:Hw; simpl in H; [|done].
    injection H as <-. eauto 10.
  - destruct (op_cid op) as [cid|]; [|done].
    destruct (car_blocks car !! cid) as [bytes|]; [|done].
    destruct (cborToLexRecord bytes) as [record|] eqn:Hrec; simpl in H; [|done].
    destruct (prepareUpdate _) as [w|] eqn:Hw; simpl in H; [|done].
    injection H as <-. eauto 10.
  - destruct (prepareDelete _) as [d|] eqn:Hd; simpl in H; [|done].
    injection H as <-. eauto.
Qed.

Lemma parseCommitEvt_Ok evt writes blocks :
  parseCommitEvt' evt = Ok (writes, blocks) →
  ∃ car unfiltered,
    readCar (evt_blocks evt) = Ok car ∧
    Forall2 (λ op x, parseOp' (evt_repo evt) car op = Ok x) (evt_ops evt) unfiltered ∧
    writes = omap id unfiltered ∧
    blocks = car_blocks car.
Proof.
  unfold parseCommitEvt.
  destruct (readCar (evt_blocks evt)) as [car|]; simpl; [|done].
  destruct (mapM _ (evt_ops evt)) as [unfiltered|] eqn:Hmap; simpl; [|done].
  intros [= <- <-]. exists car, unfiltered.
  eauto using mapM_result_Ok.
Qed.

(** Each write of the result is the write of one of the operations. *)
Lemma parseCommitEvt_write evt writes blocks write :
  parseCommitEvt' evt = Ok (writes, blocks) →
  write ∈ writes →
  ∃ car op,
    readCar (evt_blocks evt) = Ok car ∧
    op ∈ evt_ops evt ∧
    parseOp' (evt_repo evt) car op = Ok (Some write).
Proof.
  intros (car & unfiltered & Hcar & Hall & -> & _)%parseCommitEvt_Ok Hin.
  apply list_elem_of_omap in Hin as (x & Hx & Hsome). simpl in Hsome. subst x.
  apply list_elem_of_lookup in Hx as [i Hi].
  destruct (Forall2_lookup_r _ _ _ _ _ Hall Hi) as (op & Hop & Hparse).
  exists car, op. split_and!; [done| |done].
  by eapply list_elem_of_lookup_2.
Qed.

(** C3.  With the CAR of the event decoded and the path of [op]
    parsed: when [op] is a create or an update whose record bytes cannot
    be resolved (no content hash, or a hash that is not among the blocks
    of the CAR), it yields no prepared write and the event parses to
    exactly what it parses to without [op], so the other operations go
    through as they would have; when [op] is a delete, no record is
    looked up, and its prepared delete is among the writes of every
    result. *)
Theorem parseCommitEvt_drops_unresolved evt pre op post car key :
  evt_ops evt = pre ++ op :: post →
  readCar (evt_blocks evt) = Ok car →
  parseDataKey (op_path op) = Ok key →
  (op_action op ≠ OpDelete → recordBytesOf car op = None →
     parseOp' (evt_repo evt) car op = Ok None ∧
     parseCommitEvt' evt = parseCommitEvt' (withOps evt (pre ++ post)))
  ∧ (op_action op = OpDelete →
     parseOp' (evt_repo evt) car op
     = (d ← prepareDelete {| do_did := evt_repo evt;
                             do_collection := collection key;
                             do_rkey := rkey key |};
        mret (Some (WDelete d))) ∧
     ∀ writes blocks,
       parseCommitEvt' evt = Ok (writes, blocks) →
       ∃ d, prepareDelete {| do_did := evt_repo evt;
                             do_collection := collection key;
                             do_rkey := rkey key |} = Ok d ∧
            WDelete d ∈ writes).
Proof.
  intros Hops Hcar Hkey. split.
  - intros Hact Hbytes.
    pose proof (parseOp_unresolved (evt_repo evt) car op key Hkey Hact Hbytes) as Hnone.
    split; [done|].
    unfold parseCommitEvt. simpl. rewrite Hops, Hcar. simpl.
    rewrite !mapM_result_app. simpl. rewrite Hnone. simpl.
    destruct (mapM _ pre) as [k1|]; simpl; [|done].
    destruct (mapM _ post) as [k2|]; simpl; [|done].
    by rewrite !omap_app.
  - intros Hact.
    assert (parseOp' (evt_repo evt) car op
            = (d ← prepareDelete {| do_did := evt_repo evt;
                                    do_collection := collection key;
                                    do_rkey := rkey key |};
               mret (Some (WDelete d)))) as Hdel.
    { rewrite parseOp_delete by done. by rewrite Hkey. }
    split; [done|].
    intros writes blocks (car' & unfiltered & Hcar' & Hall & -> & _)%parseCommitEvt_Ok.
    assert (car' = car) as -> by congruence.
    rewrite Hops in Hall.
    apply Forall2_app_inv_l in Hall as (k1 & k2 & _ & Hk2 & ->).
    apply Forall2_cons_inv_l in Hk2 as (x & k2' & Hx & _ & ->).
    rewrite Hdel in Hx.
    destruct (prepareDelete _) as [d|]; simpl in Hx; [|done].
    injection Hx as <-. exists d. split; [done|].
    rewrite omap_app. apply elem_of_app. right. simpl. apply list_elem_of_here.
Qed.

(** C7, as amended.  Every write [parseCommitEvt] returns comes from
    one operation of the event whose path parsed: a create or an update
    is what [prepareCreate] or [prepareUpdate] returned for the record
    decoded from the bytes of the operation, called with
    [validate = false], so that the record is replayed unchecked; a
    delete is what [prepareDelete] returned and carries no blobs. *)
Theorem parseCommitEvt_prepares_unvalidated evt writes blocks write :
  parseCommitEvt' evt = Ok (writes, blocks) →
  write ∈ writes →
  (is_delete write = true → write_blobs write = []) ∧
  ∃ car op key,
    readCar (evt_blocks evt) = Ok car ∧
    op ∈ evt_ops evt ∧
    parseDataKey (op_path op) = Ok key ∧
    preparedBy cborToLexRecord prepareCreate prepareUpdate prepareDelete
               (evt_repo evt) car op key write.
Proof.
  intros Hparse Hin. split; [by destruct write|].
  destruct (parseCommitEvt_write _ _ _ _ Hparse Hin) as (car & op & Hcar & Hop & Hw).
  apply parseOp_Some in Hw as (key & Hkey & Hprep).
  by exists car, op, key.
Qed.

End ParseCommitEvtFacts.

(** ** Replaying a commit *)

Lemma rev_geb_refl (r : Rev) : rev_geb r r = true.
Proof.
  unfold rev_geb, String.leb.
  assert (String.compare r r = Eq) as ->; [|done].
  induction r as [|c r IH]; simpl; [done|].
  unfold Ascii.compare. by rewrite N.compare_refl.
Qed.

Section WorldFacts.
Context {RepoRecord : Type}.
Implicit Types (w : World RepoRecord) (a : Actor RepoRecord).
Implicit Types (fn : ActorDb RepoRecord → result (ActorDb RepoRecord)).

Lemma actorExists_true did w :
  actorExists did w = true ↔ is_Some (actors w !! did).
Proof. unfold actorExists. apply bool_decide_eq_true. Qed.

Lemma actorExists_false did w :
  actorExists did w = false ↔ actors w !! did = None.
Proof.
  unfold actorExists. rewrite bool_decide_eq_false. symmetry. apply eq_None_not_Some.
Qed.

Lemma transact_Ok did fn w w' :
  transact did fn w = Ok w' →
  ∃ a db', actors w !! did = Some a ∧ fn (db a) = Ok db' ∧
    w' = {| actors := <[did := {| keypair := keypair a; db := db' |}]> (actors w);
            accounts := accounts w;
            keypairs := keypairs w |}.
Proof.
  unfold transact. destruct (actors w !! did) as [a|]; [|done].
  destruct (fn (db a)) as [db'|] eqn:Hfn; simpl; [|done].
  intros [= <-]. eauto.
Qed.

(** A transaction that leaves the database as it found it leaves the
    world as it found it. *)
Lemma transact_unchanged did fn w a :
  actors w !! did = Some a → fn (db a) = Ok (db a) → transact did fn w = Ok w.
Proof.
  unfold transact. intros Ha Hfn. rewrite Ha, Hfn. simpl.
  destruct w as [acts accs k], a as [kp d]. simpl in *.
  unfold mret, result_ret. do 2 f_equal. by apply insert_id.
Qed.

Lemma transact_same_accounts did fn w w' :
  transact did fn w = Ok w' →
  keypairs w' = keypairs w ∧
  accounts w' = accounts w ∧
  dom (actors w') = dom (actors w) ∧
  keypair <$> actors w' !! did = keypair <$> actors w !! did.
Proof.
  intros (a & db' & Ha & Hfn & ->)%transact_Ok. simpl. split_and!; [done..| |].
  - rewrite dom_insert_L. apply subseteq_union_1_L, singleton_subseteq_l.
    by eapply elem_of_dom_2.
  - by rewrite lookup_insert_eq, Ha.
Qed.

End WorldFacts.

Section CommitTaskFacts.
Context {RepoRecord : Type}.
Variable readCar : Bytes → result Car.
Variable parseDataKey : string → result DataKey.
Variable cborToLexRecord : Bytes → result RepoRecord.
Variable prepareCreate : PrepareOpts RepoRecord → result (PreparedRecord RepoRecord).
Variable prepareUpdate : PrepareOpts RepoRecord → result (PreparedRecord RepoRecord).
Variable prepareDelete : DeleteOpts → result PreparedDelete.
Variable formatCommit :
  ActorDb RepoRecord → list (PreparedWrite RepoRecord) → result CommitData.
Variable processWriteBlobs :
  Rev → list (PreparedWrite RepoRecord) → BlobTables → result BlobTables.
Variable loop : EventLoop.

Implicit Types (w : World RepoRecord) (a : Actor RepoRecord) (db : ActorDb RepoRecord).
Implicit Types (writes : list (PreparedWrite RepoRecord)) (blocks : BlockMap).

Abbreviation parseCommitEvt' :=
  (parseCommitEvt readCar parseDataKey cborToLexRecord
                  prepareCreate prepareUpdate prepareDelete).
Abbreviation replayCommit' := (replayCommit formatCommit loop).
Abbreviation transactCommit' := (transactCommit formatCommit loop).
Abbreviation processRepoCreation' := (processRepoCreation processWriteBlobs loop).
Abbreviation commitTask' :=
  (commitTask readCar parseDataKey cborToLexRecord
              prepareCreate prepareUpdate prepareDelete
              formatCommit processWriteBlobs loop).

(** The callback of [processCommit], with the [Promise.all] worked out. *)
Lemma replayCommit_unfold now evt writes blocks db :
  replayCommit' now evt writes blocks db
  = (root ← getRootDetailed db;
     if rev_geb (root_rev root) (evt_rev evt) then mret db
     else
       commit ← formatCommit db writes;
       mret {| storage := applyCommitTo (replayedCommit evt blocks commit) (storage db);
               record := foldl (indexWrite (evt_rev evt)) (record db) writes;
               blobs := trackedBlobs now writes (blobs db) |}).
Proof.
  unfold replayCommit.
  destruct (getRootDetailed db) as [root|]; simpl; [|done].
  destruct (rev_geb _ _); [done|].
  destruct (formatCommit db writes) as [commit|]; simpl; [|done].
  by rewrite promiseAll_replayOps.
Qed.

Lemma replayCommit_gate now evt writes blocks db root :
  getRootDetailed db = Ok root →
  rev_geb (root_rev root) (evt_rev evt) = true →
  replayCommit' now evt writes blocks db = Ok db.
Proof.
  intros Hroot Hgate. unfold replayCommit. rewrite Hroot. simpl. by rewrite Hgate.
Qed.

(** After the callback the stored revision is at least the event's. *)
Lemma replayCommit_stored now evt writes blocks db db' :
  replayCommit' now evt writes blocks db = Ok db' →
  ∃ root, getRootDetailed db' = Ok root ∧
          rev_geb (root_rev root) (evt_rev evt) = true.
Proof.
  rewrite replayCommit_unfold.
  destruct (getRootDetailed db) as [root|] eqn:Hroot; simpl; [|done].
  destruct (rev_geb _ _) eqn:Hgate.
  - intros [= <-]. eauto.
  - destruct (formatCommit db writes) as [commit|]; simpl; [|done].
    intros [= <-]. eexists. split; [done|]. apply rev_geb_refl.
Qed.

Lemma transactCommit_gate now evt writes blocks w a root :
  actors w !! evt_repo evt = Some a →
  getRootDetailed (db a) = Ok root →
  rev_geb (root_rev root) (evt_rev evt) = true →
  transactCommit' now evt writes blocks w = (w, Fulfilled).
Proof.
  intros Ha Hroot Hgate. unfold transactCommit.
  erewrite transact_unchanged; [done..|]. by eapply replayCommit_gate.
Qed.

(** Going through the transaction a second time changes nothing. *)
Lemma transactCommit_again now now' evt writes blocks writes' blocks' w w' :
  transact (evt_repo evt) (replayCommit' now evt writes blocks) w = Ok w' →
  transactCommit' now' evt writes' blocks' w' = (w', Fulfilled).
Proof.
  intros (a & db' & Ha & Hfn & ->)%transact_Ok.
  destruct (replayCommit_stored _ _ _ _ _ _ Hfn) as (root & Hroot & Hgate).
  eapply transactCommit_gate.
  - simpl. by rewrite lookup_insert_eq.
  - done.
  - done.
Qed.

Lemma transactCommit_idempotent now now' evt writes blocks w :
  (transactCommit' now' evt writes blocks (transactCommit' now evt writes blocks w).1).1
  = (transactCommit' now evt writes blocks w).1.
Proof.
  unfold transactCommit at 2 3.
  destruct (transact _ (replayCommit' now _ _ _) w) as [w'|] eqn:Hw; simpl.
  - by erewrite transactCommit_again.
  - unfold transactCommit.
    destruct (transact _ (replayCommit' now' _ _ _) w) as [w'|] eqn:Hw'; simpl; [|done].
    apply transact_Ok in Hw' as (a & db' & Ha & Hfn & ->).
    unfold transact in Hw. rewrite Ha in Hw.
    rewrite replayCommit_unfold in Hw, Hfn.
    destruct (getRootDetailed (db a)) as [root|]; simpl in *; [|done].
    destruct (rev_geb _ _); [done|].
    destruct (formatCommit (db a) writes); simpl in *; done.
Qed.

Lemma transactCommit_same_accounts now evt writes blocks w :
  let w' := (transactCommit' now evt writes blocks w).1 in
  keypairs w' = keypairs w ∧
  accounts w' = accounts w ∧
  dom (actors w') = dom (actors w) ∧
  keypair <$> actors w' !! evt_repo evt = keypair <$> actors w !! evt_repo evt.
Proof.
  unfold transactCommit.
  destruct (transact _ _ w) as [w'|] eqn:Hw; simpl; [|done].
  by eapply transact_same_accounts.
Qed.

Lemma transactCommit_exists now evt writes blocks w :
  actorExists (evt_repo evt) (transactCommit' now evt writes blocks w).1
  = actorExists (evt_repo evt) w.
Proof.
  destruct (transactCommit_same_accounts now evt writes blocks w) as (_ & _ & Hdom & _).
  unfold actorExists. apply bool_decide_ext.
  by rewrite <- !elem_of_dom, Hdom.
Qed.

(** *** Genesis *)

Lemma applyCommitTo_genesis evt blocks :
  applyCommitTo (genesisCommit evt blocks) (storage (emptyDb (RepoRecord:=RepoRecord)))
  = {| repo_root := Some (evt_commit evt, evt_rev evt); repo_block := blocks |}.
Proof.
  unfold applyCommitTo. simpl. f_equal.
  rewrite (left_id_L ∅ (∪)). apply map_filter_id. intros i x _. simpl. set_solver.
Qed.

Lemma processRepoCreation_unfold evt writes blocks w :
  actors w !! evt_repo evt = None →
  processRepoCreation' evt writes blocks w
  = match processWriteBlobs (evt_rev evt) writes {| record_blob := ∅; blob := ∅ |} with
    | Throw => (withNewActor w (evt_repo evt) emptyDb, Rejected)
    | Ok bt => (withNewActor w (evt_repo evt) (genesisDb evt writes blocks bt), Fulfilled)
    end.
Proof.
  intros Hnone. unfold processRepoCreation, createKeypair, actorCreate.
  assert (actorExists (evt_repo evt)
            {| actors := actors w; accounts := accounts w;
               keypairs := S (keypairs w) |} = false) as ->.
  { by apply actorExists_false. }
  simpl. unfold transact. simpl. rewrite lookup_insert_eq. simpl.
  rewrite promiseAll_genesisOps. simpl.
  destruct (processWriteBlobs _ _ _) as [bt|]; simpl; [|done].
  unfold withNewActor, genesisDb. rewrite insert_insert_eq.
  by rewrite applyCommitTo_genesis.
Qed.

(** *** The task as a whole *)

Lemma commitTask_idempotent now now' evt w :
  (commitTask' now' evt (commitTask' now evt w).1).1 = (commitTask' now evt w).1.
Proof.
  unfold commitTask.
  destruct (parseCommitEvt' evt) as [[writes blocks]|] eqn:Hparse; [|done].
  destruct (evt_since evt) as [since|]; [apply transactCommit_idempotent|].
  destruct (actorExists (evt_repo evt) w) eqn:Hex.
  { rewrite transactCommit_exists, Hex. apply transactCommit_idempotent. }
  apply actorExists_false in Hex.
  rewrite processRepoCreation_unfold by done.
  destruct (processWriteBlobs _ _ _) as [bt|]; simpl.
  - assert (actorExists (evt_repo evt)
              (withNewActor w (evt_repo evt) (genesisDb evt writes blocks bt)) = true) as ->.
    { apply actorExists_true. simpl. rewrite lookup_insert_eq. eauto. }
    erewrite transactCommit_gate; [done| | |].
    + simpl. by rewrite lookup_insert_eq.
    + done.
    + apply rev_geb_refl.
  - assert (actorExists (evt_repo evt)
              (withNewActor w (evt_repo evt) emptyDb) = true) as ->.
    { apply actorExists_true. simpl. rewrite lookup_insert_eq. eauto. }
    unfold transactCommit, transact. simpl. by rewrite lookup_insert_eq.
Qed.

(** C1.  For a commit event of an account whose repository exists:
    when the stored revision is at least the event's, the transaction
    callback returns at once with the database as it found it (no commit
    is formatted or applied, nothing is indexed, no blob is tracked) and
    the task leaves the world unchanged; and, whatever the stored
    revision, running the task for the same event a second time leaves
    the state the first run left. *)
Theorem processCommit_revision_gate now now' evt w a :
  actors w !! evt_repo evt = Some a →
  (∀ root,
     getRootDetailed (db a) = Ok root →
     rev_geb (root_rev root) (evt_rev evt) = true →
     (∀ writes blocks, replayCommit' now evt writes blocks (db a) = Ok (db a)) ∧
     (commitTask' now evt w).1 = w)
  ∧ (commitTask' now' evt (commitTask' now evt w).1).1 = (commitTask' now evt w).1.
Proof.
  intros Ha. split; [|apply commitTask_idempotent].
  intros root Hroot Hgate. split.
  - intros writes blocks. by eapply replayCommit_gate.
  - unfold commitTask.
    destruct (parseCommitEvt' evt) as [[writes blocks]|]; [|done].
    assert (actorExists (evt_repo evt) w = true) as ->.
    { apply actorExists_true. eauto. }
    erewrite transactCommit_gate by done. by destruct (evt_since evt).
Qed.

(** C2.  For a commit event without [since] of an account that has no
    repository, once the event is parsed and provided
    [processWriteBlobs] does not throw: the task succeeds; one keypair
    is generated, the next one, and it is the new actor's; the actor
    stores gain the account's and no other; the new repository has the
    event's commit as its root, at the event's revision, holds the
    event's blocks, and has the writes indexed at that revision and the
    blobs processed. *)
Theorem processCommit_genesis now evt w writes blocks bt :
  evt_since evt = None →
  actors w !! evt_repo evt = None →
  parseCommitEvt' evt = Ok (writes, blocks) →
  processWriteBlobs (evt_rev evt) writes {| record_blob := ∅; blob := ∅ |} = Ok bt →
  ∃ w' a,
    commitTask' now evt w = (w', Fulfilled) ∧
    keypairs w' = S (keypairs w) ∧
    keypair a = keypairs w ∧
    actors w' = <[evt_repo evt := a]> (actors w) ∧
    size (actors w') = S (size (actors w)) ∧
    accounts w' = accounts w ∧
    getRootDetailed (db a)
    = Ok {| root_cid := evt_commit evt; root_rev := evt_rev evt |} ∧
    repo_block (storage (db a)) = blocks ∧
    record (db a) = foldl (indexWrite (evt_rev evt)) ∅ writes ∧
    blobs (db a) = bt.
Proof.
  intros Hsince Hnone Hparse Hblobs.
  exists (withNewActor w (evt_repo evt) (genesisDb evt writes blocks bt)),
         {| keypair := keypairs w; db := genesisDb evt writes blocks bt |}.
  split_and!; try done.
  - unfold commitTask. rewrite Hparse, Hsince.
    assert (actorExists (evt_repo evt) w = false) as -> by (by apply actorExists_false).
    rewrite processRepoCreation_unfold by done. by rewrite Hblobs.
  - simpl. by apply map_size_insert_None.
Qed.

(** C10.  For a commit event without [since] of an account whose
    repository exists, the task is the transaction of the ordinary path
    on the parsed writes: no keypair is generated, the actor stores are
    those of the same accounts, the account keeps its keypair, and when
    the stored revision is at least the event's the world is left
    unchanged. *)
Theorem processCommit_null_since_existing now evt w a :
  evt_since evt = None →
  actors w !! evt_repo evt = Some a →
  commitTask' now evt w
  = match parseCommitEvt' evt with
    | Throw => (w, Rejected)
    | Ok (writes, blocks) => transactCommit' now evt writes blocks w
    end
  ∧ keypairs (commitTask' now evt w).1 = keypairs w
  ∧ dom (actors (commitTask' now evt w).1) = dom (actors w)
  ∧ keypair <$> actors (commitTask' now evt w).1 !! evt_repo evt = Some (keypair a)
  ∧ (∀ root,
       getRootDetailed (db a) = Ok root →
       rev_geb (root_rev root) (evt_rev evt) = true →
       (commitTask' now evt w).1 = w).
Proof.
  intros Hsince Ha.
  assert (actorExists (evt_repo evt) w = true) as Hex.
  { apply actorExists_true. eauto. }
  assert (commitTask' now evt w
          = match parseCommitEvt' evt with
            | Throw => (w, Rejected)
            | Ok (writes, blocks) => transactCommit' now evt writes blocks w
            end) as Heq.
  { unfold commitTask. rewrite Hsince, Hex. done. }
  split; [done|]. rewrite Heq.
  destruct (parseCommitEvt' evt) as [[writes blocks]|]; simpl.
  - destruct (transactCommit_same_accounts now evt writes blocks w)
      as (Hk & _ & Hdom & Hkp).
    split_and!; [done|done|by rewrite Hkp, Ha|].
    intros root Hroot Hgate. by erewrite transactCommit_gate.
  - by rewrite Ha.
Qed.

End CommitTaskFacts.

(** ** Tracking blobs *)

Section BlobFacts.
Context {RepoRecord : Type}.
Implicit Types (t : BlobTables) (ub : string * BlobRef) (ubs : list (string * BlobRef)).
Implicit Types (writes : list (PreparedWrite RepoRecord)).

Lemma record_blob_insertRecordBlob c u t :
  record_blob (insertRecordBlob c u t) = {[ (c, u) ]} ∪ record_blob t.
Proof.
  unfold insertRecordBlob. case_decide; [|done].
  symmetry. by apply subseteq_union_1_L, singleton_subseteq_l.
Qed.

Lemma blob_insertRecordBlob c u t : blob (insertRecordBlob c u t) = blob t.
Proof. unfold insertRecordBlob. by case_decide. Qed.

Lemma record_blob_insertBlob c row t :
  record_blob (insertBlob c row t) = record_blob t.
Proof. unfold insertBlob. by destruct (blob t !! c). Qed.

(** A conflicting insert is ignored: the row that is there stays. *)
Lemma insertBlob_conflict c row t :
  is_Some (blob t !! c) → insertBlob c row t = t.
Proof. unfold insertBlob. by intros [old ->]. Qed.

Lemma insertRecordBlob_conflict c u t :
  (c, u) ∈ record_blob t → insertRecordBlob c u t = t.
Proof. unfold insertRecordBlob. intros H. by rewrite decide_True. Qed.

Lemma blob_insertBlob_old c c' row old t :
  blob t !! c' = Some old → blob (insertBlob c row t) !! c' = Some old.
Proof.
  unfold insertBlob. intros Hold.
  destruct (blob t !! c) eqn:Hc; [done|]. simpl.
  rewrite lookup_insert_ne; [done|]. congruence.
Qed.

Lemma blob_insertBlob_present c row t : is_Some (blob (insertBlob c row t) !! c).
Proof.
  unfold insertBlob. destruct (blob t !! c) eqn:Hc; [by rewrite Hc|].
  simpl. rewrite lookup_insert_eq. eauto.
Qed.

Lemma record_blob_upserts now ubs t :
  record_blob (foldl (upsertBlob now) t ubs)
  = list_to_set (associationOf <$> ubs) ∪ record_blob t.
Proof.
  revert t; induction ubs as [|ub ubs IH]; intros t; simpl.
  - by rewrite (left_id_L ∅ (∪)).
  - rewrite IH. unfold upsertBlob.
    rewrite record_blob_insertBlob, record_blob_insertRecordBlob.
    unfold associationOf. set_solver.
Qed.

Lemma blob_upserts_old now ubs t c old :
  blob t !! c = Some old → blob (foldl (upsertBlob now) t ubs) !! c = Some old.
Proof.
  revert t; induction ubs as [|ub ubs IH]; intros t Hold; simpl; [done|].
  apply IH. unfold upsertBlob. apply blob_insertBlob_old.
  by rewrite blob_insertRecordBlob.
Qed.

Lemma blob_upserts_present now ubs t ub :
  ub ∈ ubs → is_Some (blob (foldl (upsertBlob now) t ubs) !! blob_cid ub.2).
Proof.
  revert t; induction ubs as [|ub' ubs IH]; intros t Hin; [by inversion Hin|].
  simpl. apply elem_of_cons in Hin as [->|Hin]; [|by apply IH].
  destruct (blob_insertBlob_present (blob_cid ub'.2)
              {| row_mimeType := blob_mimeType ub'.2;
                 row_size := blob_size ub'.2;
                 row_createdAt := now |}
              (insertRecordBlob (blob_cid ub'.2) ub'.1 t)) as [old Hold].
  exists old. by apply blob_upserts_old.
Qed.

(** Upserting blobs that all have their row changes no row. *)
Lemma blob_upserts_conflict now ubs t :
  (∀ ub, ub ∈ ubs → is_Some (blob t !! blob_cid ub.2)) →
  blob (foldl (upsertBlob now) t ubs) = blob t.
Proof.
  revert t; induction ubs as [|ub ubs IH]; intros t Hall; simpl; [done|].
  assert (blob (upsertBlob now t ub) = blob t) as Hsame.
  { unfold upsertBlob. rewrite insertBlob_conflict.
    - apply blob_insertRecordBlob.
    - rewrite blob_insertRecordBlob. apply Hall, list_elem_of_here. }
  rewrite IH; [done|]. intros ub' Hin. rewrite Hsame.
  by apply Hall, list_elem_of_further.
Qed.

Lemma newBlobCids_upserts writes :
  newBlobCids writes = list_to_set ((associationOf <$> blobUpserts writes).*1).
Proof.
  unfold newBlobCids, blobUpserts. f_equal.
  induction writes as [|write writes IH]; [done|].
  rewrite !bind_cons, !fmap_app, IH. f_equal.
  destruct write as [w|w|d]; simpl; [| |done];
    rewrite <- !list_fmap_compose; by apply list_fmap_ext.
Qed.

(** Once the blobs of the writes are tracked, dereferencing for the same
    writes removes no metadata row, and only association rows that the
    upserts put back. *)
Lemma deleteDereferencedBlobs_tracked now writes t :
  let t1 := trackedBlobs now writes t in
  blob (deleteDereferencedBlobs writes t1) = blob t1 ∧
  list_to_set (associationOf <$> blobUpserts writes)
    ∪ record_blob (deleteDereferencedBlobs writes t1)
  = record_blob t1.
Proof.
  intros t1.
  assert (record_blob t1
          = list_to_set (associationOf <$> blobUpserts writes)
            ∪ filter (λ row, row.2 ∉ dereferencedUris writes) (record_blob t)) as Hrb.
  { unfold t1, trackedBlobs. by rewrite record_blob_upserts. }
  assert (∀ row : string * string,
            row ∈ (list_to_set (associationOf <$> blobUpserts writes) : gset _) →
            row.1 ∈ newBlobCids writes) as Hnew.
  { intros row Hrow. rewrite newBlobCids_upserts.
    apply elem_of_list_to_set, list_elem_of_fmap. exists row. split; [done|].
    by apply elem_of_list_to_set in Hrow. }
  split.
  - unfold deleteDereferencedBlobs at 1. simpl.
    apply map_filter_id. intros c row _. simpl.
    rewrite elem_of_difference, elem_of_map. intros [(r & -> & Hr) Hkeep].
    apply elem_of_filter in Hr as [Huri Hr]. rewrite Hrb in Hr.
    apply elem_of_union in Hr as [Hr|Hr].
    + apply Hkeep, elem_of_union. left. by apply Hnew.
    + apply elem_of_filter in Hr as [Hr _]. done.
  - unfold deleteDereferencedBlobs at 1. simpl. rewrite Hrb.
    apply set_eq. intros row.
    rewrite !elem_of_union, !elem_of_filter, !elem_of_union, !elem_of_filter.
    destruct (decide (row.2 ∈ dereferencedUris writes)); naive_solver.
Qed.

(** C5.  Tracking the blobs of the same writes a second time, at
    whatever time, gives back the tables of the first time: [trackBlobs]
    does not throw, the association rows and the metadata rows are those
    the first run left, each metadata row with the values the first run
    gave it; an insert that meets its key in the table leaves the table as
    it is. *)
Theorem trackBlobs_idempotent now now' writes (db : ActorDb RepoRecord) :
  runSteps (trackBlobs now writes) db
  = Ok (setBlobs db (trackedBlobs now writes (blobs db)))
  ∧ (runSteps (trackBlobs now writes) db ≫= runSteps (trackBlobs now' writes))
    = runSteps (trackBlobs now writes) db
  ∧ (∀ t c u, (c, u) ∈ record_blob t → insertRecordBlob c u t = t)
  ∧ (∀ t c row, is_Some (blob t !! c) → insertBlob c row t = t).
Proof.
  split_and!; [apply runSteps_trackBlobs| |intros t c u; apply insertRecordBlob_conflict
                                           |intros t c row; apply insertBlob_conflict].
  rewrite runSteps_trackBlobs.
  change (runSteps (trackBlobs now' writes)
            (setBlobs db (trackedBlobs now writes (blobs db)))
          = Ok (setBlobs db (trackedBlobs now writes (blobs db)))).
  rewrite runSteps_trackBlobs.
  unfold setBlobs. simpl. do 2 f_equal.
  destruct (deleteDereferencedBlobs_tracked now writes (blobs db)) as [Hblob Hrb].
  set (t1 := trackedBlobs now writes (blobs db)) in *.
  unfold trackedBlobs at 1.
  set (t2 := foldl (upsertBlob now') (deleteDereferencedBlobs writes t1) (blobUpserts writes)).
  assert (record_blob t2 = record_blob t1) as Hrb2.
  { unfold t2. by rewrite record_blob_upserts. }
  assert (blob t2 = blob t1) as Hblob2.
  { unfold t2. rewrite blob_upserts_conflict; [done|].
    intros ub Hub. rewrite Hblob. unfold t1, trackedBlobs.
    by apply blob_upserts_present. }
  destruct t2, t1. simpl in *. by subst.
Qed.

End BlobFacts.

(** ** The order of the operations of a commit *)

Section ReplayOrder.
Context {RepoRecord : Type}.
Variable formatCommit :
  ActorDb RepoRecord → list (PreparedWrite RepoRecord) → result CommitData.

Implicit Types (ops : list (Async RepoRecord)) (db : ActorDb RepoRecord).

(** Each step of each operation is resumed once. *)
Lemma interleave_Permutation sched ops : interleave sched ops ≡ₚ concat ops.
Proof.
  revert ops; induction sched as [|i sched IH]; intros ops; [done|].
  simpl. destruct (resume i ops) as [[s ops']|] eqn:E; [|apply IH].
  rewrite IH. apply resume_Some in E as (op' & Hi & ->).
  assert (i < length ops) by (by eapply lookup_lt_Some).
  rewrite <- (take_drop_middle ops i _ Hi) at 2.
  rewrite insert_take_drop by done.
  rewrite !concat_app. simpl.
  by rewrite Permutation_middle.
Qed.

(** C4, as amended.  When the stored revision is below the event's and
    the commit is formatted, the three operations of [processCommit] are
    handed to one [Promise.all] in the transaction, and the order in
    which their steps are resumed is the event loop's: each step of block
    storage, record indexing and blob reconciliation runs once, and
    whatever the order the callback returns the database in which the
    commit is applied, the writes are indexed and the blobs are tracked,
    which is the database of running the three one after the other,
    dereferencing before the upserts. *)
Theorem replayCommit_any_order (loop : EventLoop) now evt writes blocks db root commit :
  getRootDetailed db = Ok root →
  rev_geb (root_rev root) (evt_rev evt) = false →
  formatCommit db writes = Ok commit →
  let c := replayedCommit evt blocks commit in
  interleave (resumptions loop evt) (replayOps now c writes)
    ≡ₚ applyCommit c false ++ indexWrites writes (evt_rev evt) ++ trackBlobs now writes
  ∧ replayCommit formatCommit loop now evt writes blocks db
    = runSteps (applyCommit c false ++ indexWrites writes (evt_rev evt)
                ++ trackBlobs now writes) db
  ∧ replayCommit formatCommit loop now evt writes blocks db
    = Ok {| storage := applyCommitTo c (storage db);
            record := foldl (indexWrite (evt_rev evt)) (record db) writes;
            blobs := trackedBlobs now writes (blobs db) |}.
Proof.
  intros Hroot Hgate Hcommit c.
  assert (replayCommit formatCommit loop now evt writes blocks db
          = promiseAll (resumptions loop evt) (replayOps now c writes) db) as ->.
  { unfold replayCommit. rewrite Hroot. simpl. rewrite Hgate, Hcommit. done. }
  split_and!.
  - rewrite interleave_Permutation. simpl. by rewrite app_nil_r.
  - rewrite promiseAll_independent by apply replayOps_independent.
    simpl. by rewrite app_nil_r.
  - apply promiseAll_replayOps.
Qed.

End ReplayOrder.

(** ** Dispatch, the cursor and the page loop *)

Section RecovererFacts.
Context {RepoRecord : Type}.
Variable readCar : Bytes → result Car.
Variable parseDataKey : string → result DataKey.
Variable cborToLexRecord : Bytes → result RepoRecord.
Variable prepareCreate : PrepareOpts RepoRecord → result (PreparedRecord RepoRecord).
Variable prepareUpdate : PrepareOpts RepoRecord → result (PreparedRecord RepoRecord).
Variable prepareDelete : DeleteOpts → result PreparedDelete.
Variable formatCommit :
  ActorDb RepoRecord → list (PreparedWrite RepoRecord) → result CommitData.
Variable processWriteBlobs :
  Rev → list (PreparedWrite RepoRecord) → BlobTables → result BlobTables.
Variable requestSeqRange : SeqRangeOpts → result (list SeqEvt).
Variable loop : EventLoop.
Variable lowWaterMark : nat.

Implicit Types (w : World RepoRecord) (r : Recoverer) (q : UserQueues).

Abbreviation runTask' :=
  (runTask readCar parseDataKey cborToLexRecord
           prepareCreate prepareUpdate prepareDelete
           formatCommit processWriteBlobs loop).
Abbreviation stepQueue' :=
  (stepQueue readCar parseDataKey cborToLexRecord
             prepareCreate prepareUpdate prepareDelete
             formatCommit processWriteBlobs loop).
Abbreviation drainTo' :=
  (drainTo readCar parseDataKey cborToLexRecord
           prepareCreate prepareUpdate prepareDelete
           formatCommit processWriteBlobs loop).
Abbreviation onEmpty' :=
  (onEmpty readCar parseDataKey cborToLexRecord
           prepareCreate prepareUpdate prepareDelete
           formatCommit processWriteBlobs loop lowWaterMark).
Abbreviation processAll' :=
  (processAll readCar parseDataKey cborToLexRecord
              prepareCreate prepareUpdate prepareDelete
              formatCommit processWriteBlobs loop).
Abbreviation flush' :=
  (flush readCar parseDataKey cborToLexRecord
         prepareCreate prepareUpdate prepareDelete
         formatCommit processWriteBlobs loop).
Abbreviation loadNextPage' := (loadNextPage requestSeqRange).
Abbreviation run' :=
  (run readCar parseDataKey cborToLexRecord
       prepareCreate prepareUpdate prepareDelete
       formatCommit processWriteBlobs requestSeqRange loop lowWaterMark).

(** C6.  An account event whose status is [Deleted] puts one task on
    the queue, under the account's DID, and no other account event puts
    any: the recoverer is left as it was.  The task removes the
    account's actor store, which is no change when there is none, then
    the account's record in the account manager, and does not fail. *)
Theorem processAccountEvt_deleted evt r now w :
  processAccountEvt evt r
  = (if decide (acc_status evt = Some Deleted)
     then {| cursor := cursor r;
             queues := {| concurrency := concurrency (queues r);
                          loaded := loaded (queues r)
                                    ++ [(acc_did evt, DeleteAccountTask (acc_did evt))] |} |}
     else r)
  ∧ (∀ n, processEvent {| seq := n; body := EvtAccount evt |} r = processAccountEvt evt r)
  ∧ runTask' now (DeleteAccountTask (acc_did evt)) w
    = ({| actors := delete (acc_did evt) (actors w);
          accounts := accounts w ∖ {[ acc_did evt ]};
          keypairs := keypairs w |}, Fulfilled)
  ∧ (actors w !! acc_did evt = None →
     actors (runTask' now (DeleteAccountTask (acc_did evt)) w).1 = actors w).
Proof.
  split_and!.
  - unfold processAccountEvt. destruct (decide (acc_status evt = Some Deleted)).
    + by rewrite decide_False by (by intros ?).
    + by rewrite decide_True.
  - done.
  - done.
  - intros Hnone. simpl. by apply delete_id.
Qed.

(** *** Dispatching a page *)

Lemma processEvent_cursor evt r : cursor (processEvent evt r) = cursor r.
Proof.
  unfold processEvent, processAccountEvt, processCommit.
  destruct (body evt); simpl; [done| |done]. by case_decide.
Qed.

Lemma processEvent_queues evt r :
  queues (processEvent evt r)
  = {| concurrency := concurrency (queues r);
       loaded := loaded (queues r) ++ tasksOf evt |}.
Proof.
  unfold processEvent, processAccountEvt, processCommit, tasksOf.
  destruct (body evt) as [e|e|?]; simpl.
  - done.
  - destruct (decide (acc_status e = Some Deleted)).
    + by rewrite decide_False by (by intros ?).
    + rewrite decide_True by done. rewrite app_nil_r. by destruct (queues r).
  - rewrite app_nil_r. by destruct (queues r).
Qed.

Lemma dispatchPage_cursor page r : cursor (dispatchPage page r) = cursor r.
Proof.
  unfold dispatchPage. revert r; induction page as [|evt page IH]; intros r; [done|].
  simpl. by rewrite IH, processEvent_cursor.
Qed.

Lemma dispatchPage_queues page r :
  queues (dispatchPage page r)
  = {| concurrency := concurrency (queues r);
       loaded := loaded (queues r) ++ (page ≫= tasksOf) |}.
Proof.
  unfold dispatchPage. revert r; induction page as [|evt page IH]; intros r.
  - simpl. rewrite app_nil_r. by destruct (queues r).
  - simpl. rewrite IH, processEvent_queues. simpl. by rewrite <- app_assoc.
Qed.

Lemma loadNextPage_fetched r page :
  requestSeqRange {| earliestSeq := cursor r; limit := 5000 |} = Ok page →
  loadNextPage' r
  = Ok ({| cursor := from_option seq (cursor r) (last page);
           queues := queues (dispatchPage page r) |},
        bool_decide (page = [])).
Proof.
  intros Hpage. unfold loadNextPage. rewrite Hpage. simpl.
  destruct (last page) as [lastEvt|] eqn:Hlast; simpl.
  - rewrite bool_decide_eq_false_2; [done|]. by intros ->.
  - apply last_None in Hlast as ->. simpl. by destruct r.
Qed.

(** C8.  A recoverer is made from a start cursor and a concurrency
    limit and its [cursor] field is the start cursor.  With [page] the
    page [loadNextPage] fetches: dispatching the page leaves the cursor
    where it was and loads the tasks of every event of the page, in
    order, behind those already loaded; the recoverer [loadNextPage]
    returns has these queues and, as cursor, the sequence number of the
    last event of the page; when the page is empty the recoverer is
    unchanged. *)
Theorem loadNextPage_cursor c k r page :
  requestSeqRange {| earliestSeq := cursor r; limit := 5000 |} = Ok page →
  (cursor (newRecoverer c k) = c
   ∧ queues (newRecoverer c k) = {| concurrency := k; loaded := [] |})
  ∧ cursor (dispatchPage page r) = cursor r
  ∧ loaded (queues (dispatchPage page r)) = loaded (queues r) ++ (page ≫= tasksOf)
  ∧ loadNextPage' r
    = Ok ({| cursor := from_option seq (cursor r) (last page);
             queues := queues (dispatchPage page r) |},
          bool_decide (page = []))
  ∧ (page = [] → loadNextPage' r = Ok (r, true)).
Proof.
  intros Hpage. pose proof (loadNextPage_fetched r page Hpage) as Hload.
  split_and!; [done|done|apply dispatchPage_cursor| |done|].
  - by rewrite dispatchPage_queues.
  - intros ->. rewrite Hload. simpl. by destruct r.
Qed.

(** *** The queues drain *)

Lemma nextTask_lookup (l : list (Did * Task)) :
  l ≠ [] → is_Some (l !! nextTask loop l).
Proof.
  intros Hl. unfold nextTask, isReady.
  destruct (l !! pick loop l) as [[did task]|] eqn:Hpick.
  - case_bool_decide; [by rewrite Hpick|]. destruct l; [done|]. simpl. eauto.
  - destruct l; [done|]. simpl. eauto.
Qed.

Lemma stepQueue_loaded q w :
  loaded q ≠ [] →
  ∃ q' w' o, stepQueue' q w = Some (q', w', o) ∧
             S (length (loaded q')) = length (loaded q).
Proof.
  intros Hl. unfold stepQueue.
  pose proof (nextTask_lookup _ Hl) as Hnext.
  destruct Hnext as [[did task] Htask]. rewrite Htask.
  destruct (runTask' _ task w) as [w' o]. do 3 eexists. split; [done|]. simpl.
  rewrite length_delete by eauto.
  destruct (loaded q); [done|]. simpl. lia.
Qed.

(** When [processAll] returns without a failure, nothing is loaded. *)
Lemma drainTo_all fuel q w q' w' :
  length (loaded q) ≤ fuel →
  drainTo' 0 fuel q w = (q', w', Fulfilled) →
  loaded q' = [].
Proof.
  revert q w; induction fuel as [|fuel IH]; intros q w Hlen; simpl.
  - intros [= <- <-]. apply nil_length_inv. lia.
  - case_decide as Hzero.
    { intros [= <- <-]. apply nil_length_inv. lia. }
    assert (loaded q ≠ []) as Hl by (intros Hnil; rewrite Hnil in Hzero; simpl in Hzero; lia).
    destruct (stepQueue_loaded q w Hl) as (q1 & w1 & o & -> & Hlen1).
    destruct o; [|done]. apply IH. lia.
Qed.

Lemma flush_Returned r w r' w' :
  flush' r w = Returned r' w' → loaded (queues r') = [] ∧ cursor r' = cursor r.
Proof.
  unfold flush, processAll.
  destruct (drainTo' 0 _ (queues r) w) as [[q w1] o] eqn:Hdrain.
  destruct o; [|done]. intros [= <- <-]. simpl. split; [|done].
  by eapply drainTo_all in Hdrain.
Qed.

Lemma loadNextPage_done r r1 :
  loadNextPage' r = Ok (r1, true) →
  r1 = r ∧ requestSeqRange {| earliestSeq := cursor r; limit := 5000 |} = Ok [].
Proof.
  unfold loadNextPage.
  destruct (requestSeqRange _) as [page|]; simpl; [|done].
  destruct (last page) as [lastEvt|] eqn:Hlast; simpl; [done|].
  apply last_None in Hlast as ->. simpl. intros [= <-]. by destruct r.
Qed.

(** When [run] returns, the last page it fetched was empty and every
    task is done. *)
Lemma run_Returned fuel r w r' w' :
  run' fuel r w = Returned r' w' →
  loaded (queues r') = [] ∧
  requestSeqRange {| earliestSeq := cursor r'; limit := 5000 |} = Ok [].
Proof.
  revert r w; induction fuel as [|fuel IH]; intros r w; simpl; [done|].
  destruct (loadNextPage' r) as [[r1 fin]|] eqn:Hload; [|done].
  destruct (onEmpty' (queues r1) w) as [[q w1] o].
  destruct o; [|done].
  destruct fin; [|apply IH].
  intros [Hq Hc]%flush_Returned. simpl in Hc.
  apply loadNextPage_done in Hload as [-> Hempty].
  split; [done|]. by rewrite Hc.
Qed.

(** C9.  With [page] the page fetched at the cursor and [(q, w1, o)]
    what [onEmpty] then returns: when the page is empty this was the
    last fetch, and [run] is the flush ([processAll]) of what is still
    loaded; when it is not, nothing is flushed and [run] goes on to the
    next page, from the sequence number of the last event.  And when
    [run] returns, the page fetched last was empty and no task is left
    loaded. *)
Theorem run_until_empty_page fuel r w page q w1 o :
  requestSeqRange {| earliestSeq := cursor r; limit := 5000 |} = Ok page →
  onEmpty' (queues (dispatchPage page r)) w = (q, w1, o) →
  (page = [] →
     run' (S fuel) r w
     = match o with
       | Rejected => Failed {| cursor := cursor r; queues := q |} w1
       | Fulfilled => flush' {| cursor := cursor r; queues := q |} w1
       end)
  ∧ (page ≠ [] →
     run' (S fuel) r w
     = let r2 := {| cursor := from_option seq (cursor r) (last page); queues := q |} in
       match o with
       | Rejected => Failed r2 w1
       | Fulfilled => run' fuel r2 w1
       end)
  ∧ (∀ r' w',
       run' (S fuel) r w = Returned r' w' →
       loaded (queues r') = [] ∧
       requestSeqRange {| earliestSeq := cursor r'; limit := 5000 |} = Ok []).
Proof.
  intros Hpage Hdrain.
  pose proof (loadNextPage_fetched r page Hpage) as Hload.
  split_and!.
  - intros ->. simpl in *. rewrite Hload. simpl. rewrite Hdrain. by destruct o.
  - intros Hne. simpl. rewrite Hload. simpl. rewrite Hdrain.
    rewrite bool_decide_eq_false_2 by done. done.
  - intros r' w'. apply run_Returned.
Qed.

End RecovererFacts.

(** ** The scenario *)

Section ScenarioFacts.
Import Scenario.

Example parse_createX : parseCommitEvt createX = Ok (createXWrites, createXBlocks).
Proof. vm_compute. reflexivity. Qed.

Example parse_setAvatar :
  parseCommitEvt setAvatar = Ok (setAvatarWrites, {[ "bafyb" := [Byte.x62] ]}).
Proof. vm_compute. reflexivity. Qed.

Example genesis_of_alice :
  commitTask noon createX emptyWorld = (afterGenesis, Fulfilled).
Proof. vm_compute. reflexivity. Qed.

(** The two-event log of the specification: account A exists at
    revision "r2", record X is not in the index and there is no blob
    association row. *)
Example two_event_log :
  ∃ r w a,
    run twoEventLog 2 start emptyWorld = Returned r w ∧
    cursor r = 2%Z ∧
    actors w !! alice = Some a ∧
    repo_root (storage (db a)) = Some ("bafy-commit-2", "r2") ∧
    record (db a) = ∅ ∧
    record_blob (blobs (db a)) = ∅.
Proof. do 3 eexists. vm_compute. split_and!; reflexivity. Qed.

(** The deletion of an account that never had a commit. *)
Example bob_deleted_without_commits :
  ∃ r w,
    run [ {| seq := 1; body := EvtAccount bobDeleted |} ] 2 start emptyWorld
    = Returned r w ∧
    actors w = ∅ ∧ accounts w = {[ alice ]}.
Proof. do 2 eexists. vm_compute. split_and!; reflexivity. Qed.

Lemma processCommit_revision_gate_witness :
  (commitTask noon createX afterGenesis).1 = afterGenesis
  ∧ (commitTask midnight deleteX (commitTask noon deleteX afterGenesis).1).1
    = (commitTask noon deleteX afterGenesis).1.
Proof.
  split.
  - destruct (processCommit_revision_gate
                readCar parseDataKey cborToLexRecord
                prepareRecord prepareRecord prepareDelete
                formatCommit processWriteBlobs loop
                noon midnight createX afterGenesis aliceAtR1) as [Hgate _];
      [vm_compute; reflexivity|].
    apply (Hgate {| root_cid := "bafy-commit-1"; root_rev := "r1" |});
      vm_compute; reflexivity.
  - apply (processCommit_revision_gate
             readCar parseDataKey cborToLexRecord
             prepareRecord prepareRecord prepareDelete
             formatCommit processWriteBlobs loop
             noon midnight deleteX afterGenesis aliceAtR1).
    vm_compute; reflexivity.
Defined.

Lemma processCommit_genesis_witness :
  ∃ w' a,
    commitTask noon createX emptyWorld = (w', Fulfilled) ∧
    keypairs w' = 1 ∧
    keypair a = 0 ∧
    actors w' = <[alice := a]> ∅ ∧
    size (actors w') = 1 ∧
    accounts w' = accounts emptyWorld ∧
    getRootDetailed (db a)
    = Ok {| root_cid := "bafy-commit-1"; root_rev := "r1" |} ∧
    repo_block (storage (db a)) = createXBlocks ∧
    record (db a) = foldl (indexWrite "r1") ∅ createXWrites ∧
    blobs (db a) = noBlobs.
Proof.
  apply (processCommit_genesis
           readCar parseDataKey cborToLexRecord
           prepareRecord prepareRecord prepareDelete
           formatCommit processWriteBlobs loop
           noon createX emptyWorld createXWrites createXBlocks noBlobs);
    vm_compute; reflexivity.
Defined.

Lemma processCommit_null_since_existing_witness :
  keypairs (commitTask noon createX afterGenesis).1 = 1
  ∧ dom (actors (commitTask noon createX afterGenesis).1) = {[ alice ]}
  ∧ keypair <$> actors (commitTask noon createX afterGenesis).1 !! alice = Some 0.
Proof.
  destruct (processCommit_null_since_existing
              readCar parseDataKey cborToLexRecord
              prepareRecord prepareRecord prepareDelete
              formatCommit processWriteBlobs loop
              noon createX afterGenesis aliceAtR1)
    as (_ & Hkeys & Hdom & Hkey & _); [vm_compute; reflexivity..|].
  split_and!.
  - exact Hkeys.
  - etrans; [exact Hdom|]. vm_compute. reflexivity.
  - exact Hkey.
Defined.

(** The second and the third operation of [partial] cannot be
    resolved; the fourth is a delete. *)
Lemma parseCommitEvt_drops_unresolved_witness :
  parseCommitEvt partial
  = parseCommitEvt (withOps partial
      [ {| op_action := OpCreate; op_path := "app.bsky.feed.post/A";
           op_cid := Some "bafya" |};
        {| op_action := OpUpdate; op_path := "app.bsky.feed.post/C";
           op_cid := None |};
        {| op_action := OpDelete; op_path := "app.bsky.feed.post/D";
           op_cid := None |} ])
  ∧ ∃ d, prepareDelete {| do_did := alice;
                          do_collection := "app.bsky.feed.post";
                          do_rkey := "D" |} = Ok d ∧
         ∀ writes blocks,
           parseCommitEvt partial = Ok (writes, blocks) → WDelete d ∈ writes.
Proof.
  split.
  - destruct (parseCommitEvt_drops_unresolved
                readCar parseDataKey cborToLexRecord
                prepareRecord prepareRecord prepareDelete
                partial
                [ {| op_action := OpCreate; op_path := "app.bsky.feed.post/A";
                     op_cid := Some "bafya" |} ]
                {| op_action := OpCreate; op_path := "app.bsky.feed.post/B";
                   op_cid := Some "bafyz" |}
                [ {| op_action := OpUpdate; op_path := "app.bsky.feed.post/C";
                     op_cid := None |};
                  {| op_action := OpDelete; op_path := "app.bsky.feed.post/D";
                     op_cid := None |} ]
                {| car_roots := []; car_blocks := {[ "bafya" := [Byte.x61] ]} |}
                {| collection := "app.bsky.feed.post"; rkey := "B" |})
      as [Hdrop _]; [vm_compute; reflexivity..|].
    destruct Hdrop as [_ Hsame]; [discriminate|vm_compute; reflexivity|].
    exact Hsame.
  - destruct (parseCommitEvt_drops_unresolved
                readCar parseDataKey cborToLexRecord
                prepareRecord prepareRecord prepareDelete
                partial
                [ {| op_action := OpCreate; op_path := "app.bsky.feed.post/A";
                     op_cid := Some "bafya" |};
                  {| op_action := OpCreate; op_path := "app.bsky.feed.post/B";
                     op_cid := Some "bafyz" |};
                  {| op_action := OpUpdate; op_path := "app.bsky.feed.post/C";
                     op_cid := None |} ]
                {| op_action := OpDelete; op_path := "app.bsky.feed.post/D";
                   op_cid := None |}
                []
                {| car_roots := []; car_blocks := {[ "bafya" := [Byte.x61] ]} |}
                {| collection := "app.bsky.feed.post"; rkey := "D" |})
      as [_ Hdelete]; [vm_compute; reflexivity..|].
    destruct Hdelete as [_ Hkept]; [reflexivity|].
    exists {| d_uri := "at://did:plc:alice/app.bsky.feed.post/D" |}.
    split; [reflexivity|].
    intros writes blocks Hparse.
    destruct (Hkept writes blocks Hparse) as (d & Hd & Hin).
    injection Hd as <-. exact Hin.
Defined.

(** C7, counterexample.  [mistyped] creates in [app.bsky.feed.post] a
    record of type [com.example.other]: the record does not pass the
    check, [prepareRecord] asked to validate throws on it, and the
    replay prepares the create all the same. *)
Lemma replayed_record_is_not_validated :
  parseCommitEvt mistyped
  = Ok ([ WCreate {| w_uri := "at://did:plc:alice/app.bsky.feed.post/E";
                     w_record := {| rec_type := "com.example.other"; rec_blobs := [] |};
                     w_blobs := [] |} ],
        {[ "bafyc" := [Byte.x63] ]})
  ∧ validRecord "app.bsky.feed.post"
      {| rec_type := "com.example.other"; rec_blobs := [] |} = false
  ∧ prepareRecord {| po_did := alice;
                     po_collection := "app.bsky.feed.post";
                     po_rkey := "E";
                     po_record := {| rec_type := "com.example.other"; rec_blobs := [] |};
                     po_validate := true |} = Throw.
Proof. vm_compute. split_and!; reflexivity. Qed.

Lemma parseCommitEvt_prepares_unvalidated_witness :
  ∃ car op key,
    readCar (evt_blocks mistyped) = Ok car ∧
    op ∈ evt_ops mistyped ∧
    parseDataKey (op_path op) = Ok key ∧
    preparedBy cborToLexRecord prepareRecord prepareRecord prepareDelete
      alice car op key
      (WCreate {| w_uri := "at://did:plc:alice/app.bsky.feed.post/E";
                  w_record := {| rec_type := "com.example.other"; rec_blobs := [] |};
                  w_blobs := [] |}).
Proof.
  eapply (parseCommitEvt_prepares_unvalidated
            readCar parseDataKey cborToLexRecord
            prepareRecord prepareRecord prepareDelete
            mistyped _ _ _).
  - vm_compute. reflexivity.
  - apply list_elem_of_here.
Defined.

(** C4, counterexample.  With the resumptions of [loop], replaying
    [setAvatar] dereferences blobs before the commit is applied to block
    storage, and inserts the association row before the write is
    indexed. *)
Lemma trackBlobs_runs_amid_the_mutation :
  replayTrace loop noon setAvatar
    (replayedCommit setAvatar {[ "bafyb" := [Byte.x62] ]}
       {| commit_cid := ""; commit_rev := "";
          commit_since := Some "r1"; commit_prev := Some "bafy-commit-1";
          newBlocks := ∅; relevantBlocks := ∅; removedCids := ∅ |})
    setAvatarWrites
  = [ LDeleteDereferencedBlobs; LApplyCommit; LInsertRecordBlob;
      LIndexWrites; LInsertBlob ]
  ∧ reconciledAfter [ LDeleteDereferencedBlobs; LApplyCommit; LInsertRecordBlob;
                      LIndexWrites; LInsertBlob ] = false.
Proof. split; reflexivity. Qed.

Lemma replayCommit_any_order_witness :
  replayCommit formatCommit loop noon setAvatar setAvatarWrites
    {[ "bafyb" := [Byte.x62] ]} (db aliceAtR1)
  = Ok {| storage := {| repo_root := Some ("bafy-commit-5", "r5");
                        repo_block := {[ "bafya" := [Byte.x61];
                                         "bafyb" := [Byte.x62] ]} |};
          record := <[ "at://did:plc:alice/app.bsky.actor.profile/self"
                       := ("r5", {| rec_type := "app.bsky.actor.profile";
                                    rec_blobs := [avatar] |}) ]>
                      (record (db aliceAtR1));
          blobs := {| record_blob :=
                        {[ ("bafk-avatar",
                            "at://did:plc:alice/app.bsky.actor.profile/self") ]};
                      blob := {[ "bafk-avatar" :=
                                   {| row_mimeType := "image/png";
                                      row_size := 1024;
                                      row_createdAt := noon |} ]} |} |}.
Proof.
  destruct (replayCommit_any_order formatCommit loop noon setAvatar
              setAvatarWrites {[ "bafyb" := [Byte.x62] ]} (db aliceAtR1)
              {| root_cid := "bafy-commit-1"; root_rev := "r1" |}
              {| commit_cid := ""; commit_rev := "";
                 commit_since := Some "r1"; commit_prev := Some "bafy-commit-1";
                 newBlocks := ∅; relevantBlocks := ∅; removedCids := ∅ |})
    as (_ & _ & Hdb); [vm_compute; reflexivity..|].
  etrans; [exact Hdb|]. vm_compute. reflexivity.
Defined.

Lemma loadNextPage_cursor_witness :
  cursor start = 0%Z
  ∧ cursor (dispatchPage twoEventLog start) = 0%Z
  ∧ loaded (queues (dispatchPage twoEventLog start))
    = [ (alice, CommitTask createX); (alice, CommitTask deleteX) ]
  ∧ loadNextPage (requestSeqRange twoEventLog) start
    = Ok ({| cursor := 2; queues := queues (dispatchPage twoEventLog start) |}, false).
Proof.
  destruct (loadNextPage_cursor (requestSeqRange twoEventLog) 0 10 start twoEventLog)
    as ([Hstart _] & Hcursor & Hloaded & Hload & _); [vm_compute; reflexivity|].
  split_and!.
  - exact Hstart.
  - exact Hcursor.
  - etrans; [exact Hloaded|]. reflexivity.
  - etrans; [exact Hload|]. reflexivity.
Defined.

(** The first page of [twoEventLog] is not empty: [run] goes on; the
    page after event 2 is: [run] flushes and returns. *)
Lemma run_until_empty_page_witness :
  run twoEventLog 2 start emptyWorld
  = run twoEventLog 1 {| cursor := 2; queues := twoEventsDrained.1.1 |}
        twoEventsDrained.1.2
  ∧ run twoEventLog 1 {| cursor := 2; queues := twoEventsDrained.1.1 |}
        twoEventsDrained.1.2
    = Returned {| cursor := 2; queues := newUserQueues 10 |} twoEventsDrained.1.2.
Proof.
  split.
  - destruct (run_until_empty_page
                readCar parseDataKey cborToLexRecord
                prepareRecord prepareRecord prepareDelete
                formatCommit processWriteBlobs (requestSeqRange twoEventLog) loop 0
                1 start emptyWorld twoEventLog
                twoEventsDrained.1.1 twoEventsDrained.1.2 Fulfilled)
      as (_ & Hnext & _); [vm_compute; reflexivity..|].
    apply Hnext. discriminate.
  - destruct (run_until_empty_page
                readCar parseDataKey cborToLexRecord
                prepareRecord prepareRecord prepareDelete
                formatCommit processWriteBlobs (requestSeqRange twoEventLog) loop 0
                0 {| cursor := 2; queues := twoEventsDrained.1.1 |}
                twoEventsDrained.1.2 []
                (newUserQueues 10) twoEventsDrained.1.2 Fulfilled)
      as (Hlast & _ & _); [vm_compute; reflexivity..|].
    etrans; [exact (Hlast eq_refl)|]. vm_compute. reflexivity.
Defined.

End ScenarioFacts.

(** ** More on parseCommitEvt *)

Section ParseCommitEvtMore.
Context {RepoRecord : Type}.
Variable readCar : Bytes → result Car.
Variable parseDataKey : string → result DataKey.
Variable cborToLexRecord : Bytes → result RepoRecord.
Variable prepareCreate : PrepareOpts RepoRecord → result (PreparedRecord RepoRecord).
Variable prepareUpdate : PrepareOpts RepoRecord → result (PreparedRecord RepoRecord).
Variable prepareDelete : DeleteOpts → result PreparedDelete.

Abbreviation parseOp'' :=
  (parseOp parseDataKey cborToLexRecord prepareCreate prepareUpdate prepareDelete).
Abbreviation parseCommitEvt'' :=
  (parseCommitEvt readCar parseDataKey cborToLexRecord
                  prepareCreate prepareUpdate prepareDelete).
Abbreviation preparedBy'' :=
  (preparedBy cborToLexRecord prepareCreate prepareUpdate prepareDelete).

Lemma mapM_result_Throw {A B} (f : A → result B) (l : list A) (x : A) :
  x ∈ l → f x = Throw → mapM f l = Throw.
Proof.
  intros Hin Hx. induction l as [|y l IH]; [by inversion Hin|].
  simpl. apply elem_of_cons in Hin as [<-|Hin].
  - by rewrite Hx.
  - destruct (f y); simpl; [|done]. by rewrite IH.
Qed.

Lemma parseOp_undecodable did car op bytes :
  op_action op ≠ OpDelete →
  recordBytesOf car op = Some bytes →
  cborToLexRecord bytes = Throw →
  parseOp'' did car op = Throw.
Proof.
  unfold parseOp, recordBytesOf. intros Hact Hbytes Hrec.
  destruct (parseDataKey (op_path op)) as [key|]; simpl; [|done].
  destruct (op_cid op) as [cid|]; [|done]. rewrite Hbytes.
  destruct (op_action op); [| |done]; by rewrite Hrec.
Qed.

(** X1.  One operation is enough to make [parseCommitEvt] throw: an
    operation, of any action, whose path [parseDataKey] rejects, or a
    create or an update whose block is in the CAR and does not decode.
    Such an operation is not dropped, and no write of the event is
    returned. *)
Theorem parseCommitEvt_aborts evt op :
  op ∈ evt_ops evt →
  parseDataKey (op_path op) = Throw
  ∨ (∃ car bytes,
       readCar (evt_blocks evt) = Ok car ∧
       op_action op ≠ OpDelete ∧
       recordBytesOf car op = Some bytes ∧
       cborToLexRecord bytes = Throw) →
  parseCommitEvt'' evt = Throw.
Proof.
  intros Hin Hcause. unfold parseCommitEvt.
  destruct (readCar (evt_blocks evt)) as [car|] eqn:Hcar; simpl; [|done].
  rewrite (mapM_result_Throw _ _ op Hin); [done|].
  destruct Hcause as [Hkey|(car' & bytes & [= <-] & Hact & Hbytes & Hrec)].
  - unfold parseOp. by rewrite Hkey.
  - by eapply parseOp_undecodable.
Qed.

Lemma parseOp_None did car op :
  parseOp'' did car op = Ok None → resolvable car op = false.
Proof.
  unfold parseOp, resolvable, recordBytesOf.
  destruct (parseDataKey (op_path op)) as [key|]; simpl; [|done].
  destruct (op_action op).
  - destruct (op_cid op) as [cid|]; [|by intros _; apply bool_decide_eq_false_2; intros []].
    destruct (car_blocks car !! cid) as [bytes|];
      [|by intros _; apply bool_decide_eq_false_2; intros []].
    destruct (cborToLexRecord bytes); simpl; [|done].
    by destruct (prepareCreate _).
  - destruct (op_cid op) as [cid|]; [|by intros _; apply bool_decide_eq_false_2; intros []].
    destruct (car_blocks car !! cid) as [bytes|];
      [|by intros _; apply bool_decide_eq_false_2; intros []].
    destruct (cborToLexRecord bytes); simpl; [|done].
    by destruct (prepareUpdate _).
  - by destruct (prepareDelete _).
Qed.

Lemma preparedBy_resolvable did car op key write :
  preparedBy'' did car op key write → resolvable car op = true.
Proof.
  unfold preparedBy, resolvable.
  destruct write as [w|w|d].
  - intros (-> & bytes & record & -> & _). by apply bool_decide_eq_true_2.
  - intros (-> & bytes & record & -> & _). by apply bool_decide_eq_true_2.
  - by intros [-> _].
Qed.

(** X2.  When [parseCommitEvt] returns, the blocks are those of the CAR
    and the writes are, one for one and in the order of [evt.ops], the
    prepared writes of the operations that are deletes or whose record
    bytes are in the CAR: there are as many writes as such operations, and
    nothing is reordered. *)
Theorem parseCommitEvt_in_order evt writes blocks :
  parseCommitEvt'' evt = Ok (writes, blocks) →
  ∃ car,
    readCar (evt_blocks evt) = Ok car ∧
    blocks = car_blocks car ∧
    Forall2 (λ op write,
               ∃ key, parseDataKey (op_path op) = Ok key ∧
                      preparedBy'' (evt_repo evt) car op key write)
            (filter (λ op, resolvable car op = true) (evt_ops evt)) writes ∧
    length writes = length (filter (λ op, resolvable car op = true) (evt_ops evt)).
Proof.
  intros (car & unfiltered & Hcar & Hall & -> & ->)%parseCommitEvt_Ok.
  exists car. split; [done|]. split; [done|].
  assert (Forall2 (λ op write,
               ∃ key, parseDataKey (op_path op) = Ok key ∧
                      preparedBy'' (evt_repo evt) car op key write)
            (filter (λ op, resolvable car op = true) (evt_ops evt))
            (omap id unfiltered)) as Hordered.
  { induction Hall as [|op x ops xs Hop _ IH]; [constructor|].
    destruct x as [write|]; simpl.
    - pose proof (parseOp_Some _ _ _ _ _ _ _ _ _ Hop) as (key & Hkey & Hprep).
      rewrite filter_cons_True by (by eapply preparedBy_resolvable).
      constructor; eauto.
    - apply parseOp_None in Hop.
      rewrite filter_cons_False by (by rewrite Hop). done. }
  split; [done|]. symmetry. by eapply Forall2_length.
Qed.

(** X3.  The operations are prepared independently of each other:
    parsing the event with no operation gives no write and the blocks of
    the CAR, and parsing it with the operations [ops1 ++ ops2] gives the
    writes for [ops1] followed by the writes for [ops2], or throws when
    either does. *)
Theorem parseCommitEvt_app evt ops1 ops2 :
  parseCommitEvt'' (withOps evt [])
  = (car ← readCar (evt_blocks evt); mret ([], car_blocks car))
  ∧ parseCommitEvt'' (withOps evt (ops1 ++ ops2))
    = (r1 ← parseCommitEvt'' (withOps evt ops1);
       r2 ← parseCommitEvt'' (withOps evt ops2);
       mret (r1.1 ++ r2.1, r1.2)).
Proof.
  split; [done|].
  unfold parseCommitEvt. simpl.
  destruct (readCar (evt_blocks evt)) as [car|]; simpl; [|done].
  rewrite mapM_result_app.
  destruct (mapM _ ops1) as [k1|]; simpl; [|done].
  destruct (mapM _ ops2) as [k2|]; simpl; [|done].
  by rewrite omap_app.
Qed.

End ParseCommitEvtMore.

(** ** More on trackBlobs *)

Section BlobMore.
Context {RepoRecord : Type}.
Implicit Types (t : BlobTables) (ub : string * BlobRef) (ubs : list (string * BlobRef)).
Implicit Types (writes : list (PreparedWrite RepoRecord)) (db : ActorDb RepoRecord).

Lemma elem_of_blobUpserts writes (write : PreparedWrite RepoRecord) b :
  write ∈ writes → is_delete write = false → b ∈ write_blobs write →
  (write_uri write, b) ∈ blobUpserts writes.
Proof.
  intros Hw Hdel Hb. unfold blobUpserts. apply list_elem_of_bind.
  exists write. split; [|done].
  destruct write as [w|w|d]; [| |done]; simpl in *;
    apply list_elem_of_fmap; by exists b.
Qed.

(** X4.  [trackBlobs] does not throw and leaves block storage and the
    record index as they were; when it is done, every blob of every
    create and update of the writes has its association row, under the
    address of the write, and a metadata row. *)
Theorem trackBlobs_tracks now writes db :
  ∃ db',
    runSteps (trackBlobs now writes) db = Ok db' ∧
    storage db' = storage db ∧
    record db' = record db ∧
    ∀ (write : PreparedWrite RepoRecord) b,
      write ∈ writes → is_delete write = false → b ∈ write_blobs write →
      (blob_cid b, write_uri write) ∈ record_blob (blobs db') ∧
      is_Some (blob (blobs db') !! blob_cid b).
Proof.
  exists (setBlobs db (trackedBlobs now writes (blobs db))).
  split; [apply runSteps_trackBlobs|]. split; [done|]. split; [done|].
  intros write b Hw Hdel Hb. simpl. unfold trackedBlobs.
  pose proof (elem_of_blobUpserts _ _ _ Hw Hdel Hb) as Hub. split.
  - rewrite record_blob_upserts. apply elem_of_union. left.
    apply elem_of_list_to_set, list_elem_of_fmap. by exists (write_uri write, b).
  - by apply (blob_upserts_present now _ _ (write_uri write, b)).
Qed.

Lemma blob_upserts_absent now ubs t c :
  (∀ ub, ub ∈ ubs → blob_cid ub.2 ≠ c) →
  blob t !! c = None →
  blob (foldl (upsertBlob now) t ubs) !! c = None.
Proof.
  revert t; induction ubs as [|ub ubs IH]; intros t Hne Hnone; simpl; [done|].
  apply IH; [intros ub' Hin; by apply Hne, list_elem_of_further|].
  unfold upsertBlob, insertBlob. rewrite blob_insertRecordBlob.
  destruct (blob t !! blob_cid ub.2); simpl.
  - by rewrite ?blob_insertRecordBlob.
  - rewrite lookup_insert_ne; [by rewrite ?blob_insertRecordBlob|].
    apply Hne, list_elem_of_here.
Qed.

Lemma record_blob_upserts_mono now ubs t :
  record_blob t ⊆ record_blob (foldl (upsertBlob now) t ubs).
Proof. rewrite record_blob_upserts. apply union_subseteq_r. Qed.

(** X5.  The loop of [trackBlobs] over the writes only adds rows: the
    association rows and the metadata rows that are there stay as they
    are.  And the first write to name a blob decides its metadata: when
    [(uri, b)] is the first upsert of the loop for the hash of [b] and the
    hash has no row yet, the row inserted has the media type and the size
    of [b] and the time of the transactor, whatever later writes say of
    the same hash. *)
Theorem trackBlobs_first_write_wins now writes db pre uri b post :
  blobUpserts writes = pre ++ (uri, b) :: post →
  (∀ ub, ub ∈ pre → blob_cid ub.2 ≠ blob_cid b) →
  blob (blobs db) !! blob_cid b = None →
  ∃ db',
    runSteps (mbind (M:=list) (trackWrite now) writes) db = Ok db' ∧
    record_blob (blobs db) ⊆ record_blob (blobs db') ∧
    (∀ c old, blob (blobs db) !! c = Some old → blob (blobs db') !! c = Some old) ∧
    blob (blobs db') !! blob_cid b
    = Some {| row_mimeType := blob_mimeType b;
              row_size := blob_size b;
              row_createdAt := now |}.
Proof.
  intros Hsplit Hfirst Hnone.
  exists (setBlobs db (foldl (upsertBlob now) (blobs db) (blobUpserts writes))).
  split; [apply runSteps_upserts|]. simpl. split_and!.
  - apply record_blob_upserts_mono.
  - intros c old. apply blob_upserts_old.
  - rewrite Hsplit, foldl_app. simpl. apply blob_upserts_old.
    unfold upsertBlob at 1, insertBlob. simpl. rewrite blob_insertRecordBlob.
    rewrite blob_upserts_absent by done. simpl. by rewrite lookup_insert_eq.
Qed.

End BlobMore.

(** ** More on the commit task *)

Lemma rev_geb_total (a b : Rev) : rev_geb a b = false → rev_geb b a = true.
Proof.
  unfold rev_geb. intros Hab.
  destruct (String.leb_total a b) as [H|H]; [done|congruence].
Qed.

Section CommitTaskMore.
Context {RepoRecord : Type}.
Variable readCar : Bytes → result Car.
Variable parseDataKey : string → result DataKey.
Variable cborToLexRecord : Bytes → result RepoRecord.
Variable prepareCreate : PrepareOpts RepoRecord → result (PreparedRecord RepoRecord).
Variable prepareUpdate : PrepareOpts RepoRecord → result (PreparedRecord RepoRecord).
Variable prepareDelete : DeleteOpts → result PreparedDelete.
Variable formatCommit :
  ActorDb RepoRecord → list (PreparedWrite RepoRecord) → result CommitData.
Variable processWriteBlobs :
  Rev → list (PreparedWrite RepoRecord) → BlobTables → result BlobTables.
Variable loop : EventLoop.

Implicit Types (w : World RepoRecord) (a : Actor RepoRecord) (db : ActorDb RepoRecord).
Implicit Types (writes : list (PreparedWrite RepoRecord)) (blocks : BlockMap).

Abbreviation parseCommitEvt3 :=
  (parseCommitEvt readCar parseDataKey cborToLexRecord
                  prepareCreate prepareUpdate prepareDelete).
Abbreviation replayCommit3 := (replayCommit formatCommit loop).
Abbreviation transactCommit3 := (transactCommit formatCommit loop).
Abbreviation processRepoCreation3 := (processRepoCreation processWriteBlobs loop).
Abbreviation commitTask3 :=
  (commitTask readCar parseDataKey cborToLexRecord
              prepareCreate prepareUpdate prepareDelete
              formatCommit processWriteBlobs loop).
Abbreviation deleteAccountTask3 := (deleteAccountTask (RepoRecord:=RepoRecord)).

Lemma transactCommit_frame now evt writes blocks w did :
  did ≠ evt_repo evt →
  actors (transactCommit3 now evt writes blocks w).1 !! did = actors w !! did.
Proof.
  intros Hne. unfold transactCommit.
  destruct (transact _ _ w) as [w'|] eqn:Hw; simpl; [|done].
  apply transact_Ok in Hw as (a & db' & _ & _ & ->). simpl.
  by rewrite lookup_insert_ne.
Qed.

(** X6.  The task of a commit event touches one account only: the
    account-management records are left alone, the actor store of every
    other account is as it was, and at most one keypair is generated, and
    only for an event without [since] of an account that had no actor
    store. *)
Theorem commitTask_frame now evt w :
  accounts (commitTask3 now evt w).1 = accounts w
  ∧ (keypairs (commitTask3 now evt w).1 = keypairs w
     ∨ (keypairs (commitTask3 now evt w).1 = S (keypairs w)
        ∧ evt_since evt = None
        ∧ actorExists (evt_repo evt) w = false))
  ∧ ∀ did, did ≠ evt_repo evt →
           actors (commitTask3 now evt w).1 !! did = actors w !! did.
Proof.
  cut (accounts (commitTask3 now evt w).1 = accounts w
       ∧ (keypairs (commitTask3 now evt w).1 = keypairs w
          ∨ (keypairs (commitTask3 now evt w).1 = S (keypairs w)
             ∧ evt_since evt = None
             ∧ actors w !! evt_repo evt = None))
       ∧ ∀ did, did ≠ evt_repo evt →
                actors (commitTask3 now evt w).1 !! did = actors w !! did).
  { intros (Hacc & Hkeys & Hframe). split_and!; [done| |done].
    destruct Hkeys as [Hkeys|(Hkeys & Hsince & Hnone)]; [by left|right].
    split_and!; [done|done|by apply actorExists_false]. }
  assert (∀ writes blocks,
            accounts (transactCommit3 now evt writes blocks w).1 = accounts w
            ∧ (keypairs (transactCommit3 now evt writes blocks w).1 = keypairs w
               ∨ (keypairs (transactCommit3 now evt writes blocks w).1 = S (keypairs w)
                  ∧ evt_since evt = None
                  ∧ actors w !! evt_repo evt = None))
            ∧ ∀ did, did ≠ evt_repo evt →
                     actors (transactCommit3 now evt writes blocks w).1 !! did
                     = actors w !! did) as Hordinary.
  { intros writes blocks.
    destruct (transactCommit_same_accounts formatCommit loop now evt writes blocks w)
      as (Hk & Hacc & _ & _).
    split_and!; [done|by left|]. intros did Hne. by apply transactCommit_frame. }
  unfold commitTask.
  destruct (parseCommitEvt3 evt) as [[writes blocks]|]; [|by split_and!; [|left|]].
  destruct (evt_since evt) as [since|] eqn:Hsince; [apply Hordinary|].
  destruct (actorExists (evt_repo evt) w) eqn:Hex; [apply Hordinary|].
  apply actorExists_false in Hex.
  rewrite processRepoCreation_unfold by done.
  destruct (processWriteBlobs _ _ _); simpl;
    (split_and!; [done|by right|]; intros did Hne; by rewrite lookup_insert_ne).
Qed.

(** X7.  The stored revision of a repository never goes back: after the
    task of a commit event on a repository at revision [root.rev], the
    account has its actor store and its keypair, and the stored revision is
    at least [root.rev]; it is [root.rev] itself, or the event's revision
    when that one was above. *)
Theorem commitTask_revision_monotone now evt w a root :
  actors w !! evt_repo evt = Some a →
  getRootDetailed (db a) = Ok root →
  ∃ a' root',
    actors (commitTask3 now evt w).1 !! evt_repo evt = Some a' ∧
    keypair a' = keypair a ∧
    getRootDetailed (db a') = Ok root' ∧
    rev_geb (root_rev root') (root_rev root) = true ∧
    (root_rev root' = root_rev root
     ∨ (root_rev root' = evt_rev evt ∧ rev_geb (root_rev root) (evt_rev evt) = false)).
Proof.
  intros Ha Hroot.
  assert (∀ writes blocks,
            ∃ a' root',
              actors (transactCommit3 now evt writes blocks w).1 !! evt_repo evt = Some a' ∧
              keypair a' = keypair a ∧
              getRootDetailed (db a') = Ok root' ∧
              rev_geb (root_rev root') (root_rev root) = true ∧
              (root_rev root' = root_rev root
               ∨ (root_rev root' = evt_rev evt
                  ∧ rev_geb (root_rev root) (evt_rev evt) = false))) as Hordinary.
  { intros writes blocks. unfold transactCommit.
    destruct (transact _ _ w) as [w'|] eqn:Hw; simpl.
    - apply transact_Ok in Hw as (a0 & db' & Ha0 & Hfn & ->).
      assert (a0 = a) as -> by congruence. simpl. rewrite lookup_insert_eq.
      rewrite replayCommit_unfold, Hroot in Hfn. simpl in Hfn.
      destruct (rev_geb (root_rev root) (evt_rev evt)) eqn:Hgate.
      + injection Hfn as <-. exists {| keypair := keypair a; db := db a |}, root.
        split_and!; [done|done|done|apply rev_geb_refl|by left].
      + destruct (formatCommit (db a) writes) as [commit|]; simpl in Hfn; [|done].
        injection Hfn as <-.
        eexists _, {| root_cid := evt_commit evt; root_rev := evt_rev evt |}.
        split_and!; [done|done|done| |by right].
        simpl. by apply rev_geb_total.
    - exists a, root. split_and!; [done|done|done|apply rev_geb_refl|by left]. }
  unfold commitTask.
  destruct (parseCommitEvt3 evt) as [[writes blocks]|].
  - assert (actorExists (evt_repo evt) w = true) as ->.
    { apply actorExists_true. eauto. }
    destruct (evt_since evt); apply Hordinary.
  - exists a, root. split_and!; [done|done|done|apply rev_geb_refl|by left].
Qed.

(** X8.  The creation of a repository is not atomic: the keypair and
    the actor store are made before the transaction.  When
    [processWriteBlobs] throws for an event without [since] of an account
    without actor store, the task is rejected and leaves the account with
    a keypair and an actor store without any commit; and the same event,
    handled again, is no creation any more: it goes through the
    transaction of the ordinary path, and no keypair is generated. *)
Theorem processRepoCreation_not_atomic now now' evt w writes blocks :
  evt_since evt = None →
  actors w !! evt_repo evt = None →
  parseCommitEvt3 evt = Ok (writes, blocks) →
  processWriteBlobs (evt_rev evt) writes {| record_blob := ∅; blob := ∅ |} = Throw →
  let w1 := withNewActor w (evt_repo evt) emptyDb in
  commitTask3 now evt w = (w1, Rejected)
  ∧ commitTask3 now' evt w1 = transactCommit3 now' evt writes blocks w1
  ∧ keypairs (commitTask3 now' evt w1).1 = S (keypairs w).
Proof.
  intros Hsince Hnone Hparse Hthrow w1.
  assert (commitTask3 now' evt w1 = transactCommit3 now' evt writes blocks w1) as Hagain.
  { unfold commitTask. rewrite Hparse, Hsince.
    assert (actorExists (evt_repo evt) w1 = true) as ->; [|done].
    apply actorExists_true. simpl. rewrite lookup_insert_eq. eauto. }
  split_and!.
  - unfold commitTask. rewrite Hparse, Hsince.
    assert (actorExists (evt_repo evt) w = false) as -> by (by apply actorExists_false).
    rewrite processRepoCreation_unfold by done. by rewrite Hthrow.
  - done.
  - rewrite Hagain.
    by destruct (transactCommit_same_accounts formatCommit loop now' evt writes blocks w1)
      as (-> & _).
Qed.

(** *** Tasks of different accounts *)

Lemma transact_after_delete did d fn w :
  d ≠ did →
  transact did fn (deleteAccountTask3 d w).1
  = match transact did fn w with
    | Ok w' => Ok (deleteAccountTask3 d w').1
    | Throw => Throw
    end.
Proof.
  intros Hne. unfold transact. simpl. rewrite lookup_delete_ne by done.
  destruct (actors w !! did) as [a|]; [|done].
  destruct (fn (db a)) as [db'|]; simpl; [|done].
  unfold mret, result_ret, deleteAccount, rmIfExists. simpl.
  by rewrite delete_insert_ne.
Qed.

(** X9.  Tasks of different accounts do not interfere: the task of a
    commit event has the same outcome, and leaves the same world, whether
    the deletion of another account runs before it or after it. *)
Theorem commitTask_after_other_deletion now evt d w :
  d ≠ evt_repo evt →
  commitTask3 now evt (deleteAccountTask d w).1
  = ((deleteAccountTask d (commitTask3 now evt w).1).1, (commitTask3 now evt w).2).
Proof.
  intros Hne.
  assert (∀ writes blocks,
            transactCommit3 now evt writes blocks (deleteAccountTask3 d w).1
            = ((deleteAccountTask3 d (transactCommit3 now evt writes blocks w).1).1,
               (transactCommit3 now evt writes blocks w).2)) as Hordinary.
  { intros writes blocks. unfold transactCommit.
    rewrite transact_after_delete by done.
    by destruct (transact _ _ w). }
  assert (actorExists (evt_repo evt) (deleteAccountTask3 d w).1
          = actorExists (evt_repo evt) w) as Hex.
  { unfold actorExists. simpl. by rewrite lookup_delete_ne. }
  unfold commitTask.
  destruct (parseCommitEvt3 evt) as [[writes blocks]|]; [|done].
  destruct (evt_since evt) as [since|]; [apply Hordinary|].
  rewrite Hex. destruct (actorExists (evt_repo evt) w) eqn:Hw; [apply Hordinary|].
  apply actorExists_false in Hw.
  rewrite !processRepoCreation_unfold; [|done|by simpl; rewrite lookup_delete_ne].
  destruct (processWriteBlobs _ _ _); simpl;
    unfold withNewActor, deleteAccount, rmIfExists; simpl;
    by rewrite delete_insert_ne.
Qed.

End CommitTaskMore.

(** ** More on the page loop *)

Section RunMore.
Context {RepoRecord : Type}.
Variable readCar : Bytes → result Car.
Variable parseDataKey : string → result DataKey.
Variable cborToLexRecord : Bytes → result RepoRecord.
Variable prepareCreate : PrepareOpts RepoRecord → result (PreparedRecord RepoRecord).
Variable prepareUpdate : PrepareOpts RepoRecord → result (PreparedRecord RepoRecord).
Variable prepareDelete : DeleteOpts → result PreparedDelete.
Variable formatCommit :
  ActorDb RepoRecord → list (PreparedWrite RepoRecord) → result CommitData.
Variable processWriteBlobs :
  Rev → list (PreparedWrite RepoRecord) → BlobTables → result BlobTables.
Variable requestSeqRange : SeqRangeOpts → result (list SeqEvt).
Variable loop : EventLoop.
Variable lowWaterMark : nat.

Implicit Types (w : World RepoRecord) (r : Recoverer).

Abbreviation run4 :=
  (run readCar parseDataKey cborToLexRecord
       prepareCreate prepareUpdate prepareDelete
       formatCommit processWriteBlobs requestSeqRange loop lowWaterMark).
Abbreviation onEmpty4 :=
  (onEmpty readCar parseDataKey cborToLexRecord
           prepareCreate prepareUpdate prepareDelete
           formatCommit processWriteBlobs loop lowWaterMark).
Abbreviation flush4 :=
  (flush readCar parseDataKey cborToLexRecord
         prepareCreate prepareUpdate prepareDelete
         formatCommit processWriteBlobs loop).

Lemma loadNextPage_advances bound r r1 :
  pagesWithin requestSeqRange bound →
  loadNextPage requestSeqRange r = Ok (r1, false) →
  (cursor r < cursor r1 ≤ bound)%Z.
Proof.
  intros Hpages. unfold loadNextPage.
  destruct (requestSeqRange _) as [page|] eqn:Hpage; simpl; [|done].
  destruct (last page) as [lastEvt|] eqn:Hlast; simpl; [|done].
  intros [= <-]. simpl. apply (Hpages _ page); [done|].
  apply last_Some in Hlast as [l' ->]. apply elem_of_app. right. apply list_elem_of_here.
Qed.

Lemma loadNextPage_same_cursor r r1 :
  loadNextPage requestSeqRange r = Ok (r1, true) → cursor r1 = cursor r.
Proof.
  unfold loadNextPage.
  destruct (requestSeqRange _) as [page|]; simpl; [|done].
  destruct (last page) as [lastEvt|] eqn:Hlast; simpl; [done|].
  intros [= <-]. apply dispatchPage_cursor.
Qed.

Lemma flush_settles r w :
  ∃ r' w', (flush4 r w = Returned r' w' ∨ flush4 r w = Failed r' w')
           ∧ cursor r' = cursor r.
Proof.
  unfold flush. destruct (processAll _ _ _ _ _ _ _ _ _ _ _) as [[q w'] o].
  destruct o; eauto 6.
Qed.

(** X10.  [run] comes to an end when the sequencer serves a log that
    ends: if every page holds only events above the cursor it was asked
    from and none above [bound], then after at most [bound - cursor + 1]
    pages [run] has returned or failed. *)
Theorem run_terminates bound fuel r w :
  pagesWithin requestSeqRange bound →
  Z.to_nat (bound - cursor r) < fuel →
  ∃ r' w', run4 fuel r w = Returned r' w' ∨ run4 fuel r w = Failed r' w'.
Proof.
  intros Hpages. revert r w.
  induction fuel as [|fuel IH]; intros r w Hfuel; [lia|]. simpl.
  destruct (loadNextPage requestSeqRange r) as [[r1 fin]|] eqn:Hload; [|eauto].
  destruct (onEmpty4 (queues r1) w) as [[q w1] o].
  destruct o; [|eauto].
  destruct fin.
  - destruct (flush_settles {| cursor := cursor r1; queues := q |} w1)
      as (r' & w' & H & _). eauto.
  - apply IH. simpl.
    pose proof (loadNextPage_advances _ _ _ Hpages Hload). lia.
Qed.

(** X11.  The cursor never goes back: under the same condition on the
    pages, whatever [run] ends with (return, failure, or pages still to
    load), the cursor it ends with is at least the cursor it started
    from. *)
Theorem run_cursor_monotone bound fuel r w :
  pagesWithin requestSeqRange bound →
  (cursor r ≤ match run4 fuel r w with
              | Returned r' _ | Failed r' _ | StillRunning r' _ => cursor r'
              end)%Z.
Proof.
  intros Hpages. revert r w.
  induction fuel as [|fuel IH]; intros r w; simpl; [lia|].
  destruct (loadNextPage requestSeqRange r) as [[r1 fin]|] eqn:Hload; [|lia].
  assert (cursor r ≤ cursor r1)%Z as Hle.
  { destruct fin.
    - apply loadNextPage_same_cursor in Hload. lia.
    - pose proof (loadNextPage_advances _ _ _ Hpages Hload). lia. }
  destruct (onEmpty4 (queues r1) w) as [[q w1] o].
  destruct o; [|simpl; lia].
  destruct fin.
  - destruct (flush_settles {| cursor := cursor r1; queues := q |} w1)
      as (r' & w' & [-> | ->] & Hc); simpl in *; lia.
  - specialize (IH {| cursor := cursor r1; queues := q |} w1). simpl in IH.
    destruct (run4 fuel _ w1); lia.
Qed.

(** X17.  Events that need no replay are passed over: when no event of
    a non-empty page is a commit or the deletion of an account,
    [loadNextPage] loads no task, and still moves the cursor to the
    sequence number of the last event of the page. *)
Theorem loadNextPage_skips_other_events r page :
  requestSeqRange {| earliestSeq := cursor r; limit := 5000 |} = Ok page →
  Forall (λ evt, match body evt with
                 | EvtCommit _ => False
                 | EvtAccount e => acc_status e ≠ Some Deleted
                 | EvtOther _ => True
                 end) page →
  page ≠ [] →
  ∃ lastEvt,
    last page = Some lastEvt ∧
    loadNextPage requestSeqRange r
    = Ok ({| cursor := seq lastEvt; queues := queues r |}, false).
Proof.
  intros Hpage Hother Hne.
  assert (page ≫= tasksOf = []) as Hnone.
  { clear Hpage Hne. induction Hother as [|evt page Hevt _ IH]; [done|].
    rewrite bind_cons. unfold tasksOf at 1.
    destruct (body evt) as [e|e|?]; [done| |].
    - rewrite decide_False by done. exact IH.
    - exact IH. }
  destruct (last page) as [lastEvt|] eqn:Hlast;
    [|by apply last_None in Hlast].
  exists lastEvt. split; [done|].
  unfold loadNextPage. rewrite Hpage. simpl. rewrite Hlast.
  rewrite dispatchPage_queues, Hnone, app_nil_r. by destruct (queues r).
Qed.

End RunMore.

(** ** The output manager *)

Section OutputManagerFacts.
Import OutputManager.

Lemma isAvailableLocale_spec v :
  isAvailableLocale v = true ↔ v ∈ AVAILABLE_LOCALES.
Proof. unfold isAvailableLocale. apply bool_decide_eq_true. Qed.

Lemma negotiateLoop_available l locale :
  negotiateLoop l = Some locale → locale ∈ AVAILABLE_LOCALES.
Proof.
  induction l as [|x l IH]; simpl; [done|].
  destruct (String.eqb x "*"); [done|].
  destruct (isAvailableLocale x) eqn:Hx; [|done].
  intros [= <-]. by apply isAvailableLocale_spec.
Qed.

Lemma negotiateLoop_none l :
  Forall (λ x, isAvailableLocale x = false) l → negotiateLoop l = None.
Proof.
  induction 1 as [|x l Hx _ IH]; simpl; [done|].
  destruct (String.eqb x "*"); [done|]. by rewrite Hx.
Qed.

(** X12.  [negotiateLocale] always answers with a locale the pages are
    translated to, and it answers ["en"] when no list is given, when the
    list is empty and when no locale of the list is available. *)
Theorem negotiateLocale_available desiredLocales :
  negotiateLocale desiredLocales ∈ AVAILABLE_LOCALES
  ∧ negotiateLocale None = "en"
  ∧ negotiateLocale (Some []) = "en"
  ∧ (∀ l, desiredLocales = Some l →
          Forall (λ x, isAvailableLocale x = false) l →
          negotiateLocale desiredLocales = "en").
Proof.
  split_and!; [|done|done|].
  - destruct desiredLocales as [l|]; simpl; [|set_solver].
    destruct (negotiateLoop l) as [locale|] eqn:Hl; [|set_solver].
    by eapply negotiateLoop_available.
  - intros l -> Hall. simpl. by rewrite negotiateLoop_none.
Qed.

(** X13.  ["*"] ends the negotiation: what comes after the first ["*"]
    of the list is not looked at, and the answer is the one for the
    locales before it. *)
Theorem negotiateLocale_wildcard before after :
  negotiateLocale (Some (before ++ "*" :: after)) = negotiateLocale (Some before).
Proof.
  simpl. f_equal. induction before as [|x before IH]; simpl; [done|].
  destruct (String.eqb x "*"); [done|].
  by destruct (isAvailableLocale x).
Qed.

(** X14.  The first available locale wins: when no locale before
    [locale] in the list is available or is ["*"], and [locale] is
    available, the answer is [locale], whatever follows. *)
Theorem negotiateLocale_first before locale after :
  Forall (λ x, x ≠ "*" ∧ isAvailableLocale x = false) before →
  isAvailableLocale locale = true →
  negotiateLocale (Some (before ++ locale :: after)) = locale.
Proof.
  intros Hbefore Hlocale. simpl.
  assert (negotiateLoop (before ++ locale :: after) = Some locale) as ->; [|done].
  induction Hbefore as [|x before [Hstar Hx] _ IH]; simpl.
  - destruct (String.eqb locale "*") eqn:Hs; [|by rewrite Hlocale].
    apply String.eqb_eq in Hs as ->. done.
  - apply String.eqb_neq in Hstar as ->. by rewrite Hx.
Qed.

Section BuildLinksFacts.
Variable isLinkRel : string → bool.

(** X15.  [buildLinks] keeps the links whose [rel] is a link relation,
    in their order, with their [rel] and [href], and drops the others;
    without links there is nothing to build. *)
Theorem buildLinks_keeps_link_rels links locale :
  buildLinks isLinkRel None locale = None
  ∧ ∃ out,
      buildLinks isLinkRel (Some links) locale = Some out ∧
      Forall (λ attrs, isLinkRel (attr_rel attrs) = true) out ∧
      attr_rel <$> out
      = link_rel <$> filter (λ link, isLinkRel (link_rel link) = true) links ∧
      attr_href <$> out
      = link_href <$> filter (λ link, isLinkRel (link_rel link) = true) links.
Proof.
  split; [done|]. eexists. split; [done|].
  induction links as [|link links (IHall & IHrel & IHhref)]; [by split_and!|].
  simpl.
  destruct (linkAttrs isLinkRel locale link) as [attrs|] eqn:Hattrs;
    unfold linkAttrs in Hattrs;
    destruct (isLinkRel (link_rel link)) eqn:Hrel; try done.
  - rewrite filter_cons_True by done.
    assert (attr_rel attrs = link_rel link ∧ attr_href attrs = link_href link)
      as [Hr Hh] by (destruct (link_title link); by injection Hattrs as <-).
    rewrite !fmap_cons, Hr, Hh.
    split_and!; [constructor; [by rewrite Hr|done]|by f_equal|by f_equal].
  - by destruct (link_title link).
  - rewrite filter_cons_False by (by rewrite Hrel). done.
Qed.


End BuildLinksFacts.

End OutputManagerFacts.

(** ** More cases *)

Section CasesFacts.
Import Scenario Cases.

Lemma parseCommitEvt_aborts_witness : parseCommitEvt badPath = Throw.
Proof.
  apply (parseCommitEvt_aborts
           readCar parseDataKey cborToLexRecord
           prepareRecord prepareRecord prepareDelete
           badPath
           {| op_action := OpDelete; op_path := "not-a-data-key"; op_cid := None |}).
  - apply list_elem_of_further, list_elem_of_here.
  - left. vm_compute. reflexivity.
Defined.

Lemma parseCommitEvt_in_order_witness :
  ∃ writes blocks,
    parseCommitEvt partial = Ok (writes, blocks) ∧ length writes = 2.
Proof.
  eexists _, _. split; [vm_compute; reflexivity|].
  destruct (parseCommitEvt_in_order
              readCar parseDataKey cborToLexRecord
              prepareRecord prepareRecord prepareDelete
              partial
              [ WCreate {| w_uri := "at://did:plc:alice/app.bsky.feed.post/A";
                           w_record := {| rec_type := "app.bsky.feed.post";
                                          rec_blobs := [] |};
                           w_blobs := [] |};
                WDelete {| d_uri := "at://did:plc:alice/app.bsky.feed.post/D" |} ]
              {[ "bafya" := [Byte.x61] ]})
    as (car & Hcar & _ & _ & Hlen); [vm_compute; reflexivity|].
  reflexivity.
Defined.

Lemma trackBlobs_first_write_wins_witness :
  ∃ db',
    runSteps (mbind (M:=list) (trackWrite noon) pngThenJpeg) emptyDb = Ok db' ∧
    blob (blobs db') !! "bafk-image"
    = Some {| row_mimeType := "image/png"; row_size := 10; row_createdAt := noon |}.
Proof.
  destruct (trackBlobs_first_write_wins noon pngThenJpeg emptyDb []
              "at://did:plc:alice/app.bsky.feed.post/G"
              {| blob_cid := "bafk-image"; blob_mimeType := "image/png";
                 blob_size := 10 |}
              [ ("at://did:plc:alice/app.bsky.feed.post/H",
                 {| blob_cid := "bafk-image"; blob_mimeType := "image/jpeg";
                    blob_size := 20 |}) ])
    as (db' & Hrun & _ & _ & Hrow).
  - reflexivity.
  - intros ub Hub. inversion Hub.
  - reflexivity.
  - exists db'. split; [exact Hrun|exact Hrow].
Defined.

Lemma commitTask_revision_monotone_witness :
  ∃ a' root',
    actors (commitTask noon deleteX afterGenesis).1 !! alice = Some a' ∧
    keypair a' = 0 ∧
    getRootDetailed (db a') = Ok root' ∧
    rev_geb (root_rev root') "r1" = true ∧
    (root_rev root' = "r1"
     ∨ (root_rev root' = "r2" ∧ rev_geb "r1" "r2" = false)).
Proof.
  apply (commitTask_revision_monotone
           readCar parseDataKey cborToLexRecord
           prepareRecord prepareRecord prepareDelete
           formatCommit processWriteBlobs loop
           noon deleteX afterGenesis aliceAtR1
           {| root_cid := "bafy-commit-1"; root_rev := "r1" |});
    vm_compute; reflexivity.
Defined.

Lemma processRepoCreation_not_atomic_witness :
  commitTaskWithoutBlobs noon createX emptyWorld
  = (withNewActor emptyWorld alice emptyDb, Rejected).
Proof.
  destruct (processRepoCreation_not_atomic
              readCar parseDataKey cborToLexRecord
              prepareRecord prepareRecord prepareDelete
              formatCommit failingProcessWriteBlobs loop
              noon midnight createX emptyWorld createXWrites createXBlocks)
    as (Hfirst & _ & _); [vm_compute; reflexivity..|].
  exact Hfirst.
Defined.

Lemma commitTask_after_other_deletion_witness :
  commitTask noon createX
    (deleteAccountTask (RepoRecord:=LexRecord) bob emptyWorld).1
  = ((deleteAccountTask bob (commitTask noon createX emptyWorld).1).1,
     (commitTask noon createX emptyWorld).2).
Proof.
  apply (commitTask_after_other_deletion
           readCar parseDataKey cborToLexRecord
           prepareRecord prepareRecord prepareDelete
           formatCommit processWriteBlobs loop
           noon createX bob emptyWorld).
  discriminate.
Defined.

Lemma twoEventLog_pagesWithin : pagesWithin (requestSeqRange twoEventLog) 2.
Proof.
  intros c page evt [= <-] Hin.
  apply subseteq_take, list_elem_of_filter in Hin as [Hc Hin].
  split; [done|].
  apply elem_of_cons in Hin as [->|Hin]; [simpl; lia|].
  apply elem_of_cons in Hin as [->|Hin]; [simpl; lia|].
  inversion Hin.
Qed.

Lemma run_terminates_witness :
  ∃ r' w', run twoEventLog 3 start emptyWorld = Returned r' w'
           ∨ run twoEventLog 3 start emptyWorld = Failed r' w'.
Proof.
  apply (run_terminates
           readCar parseDataKey cborToLexRecord
           prepareRecord prepareRecord prepareDelete
           formatCommit processWriteBlobs (requestSeqRange twoEventLog) loop 0
           2 3 start emptyWorld).
  - exact twoEventLog_pagesWithin.
  - vm_compute. lia.
Defined.

Lemma run_cursor_monotone_witness :
  (0 ≤ match run twoEventLog 1 start emptyWorld with
       | Returned r' _ | Failed r' _ | StillRunning r' _ => cursor r'
       end)%Z.
Proof.
  apply (run_cursor_monotone
           readCar parseDataKey cborToLexRecord
           prepareRecord prepareRecord prepareDelete
           formatCommit processWriteBlobs (requestSeqRange twoEventLog) loop 0
           2 1 start emptyWorld).
  exact twoEventLog_pagesWithin.
Defined.

Lemma negotiateLocale_first_witness :
  OutputManager.negotiateLocale (Some ["de"; "es-ES"; "fr"; "en"; "*"]) = "fr".
Proof.
  apply (negotiateLocale_first ["de"; "es-ES"] "fr" ["en"; "*"]).
  - repeat constructor; discriminate.
  - reflexivity.
Defined.


Lemma loadNextPage_skips_other_events_witness :
  loadNextPage
    (requestSeqRange [ {| seq := 7; body := EvtOther "identity" |};
                       {| seq := 9;
                          body := EvtAccount {| acc_did := bob;
                                                acc_status := Some Takendown |} |} ])
    start
  = Ok ({| cursor := 9; queues := queues start |}, false).
Proof.
  destruct (loadNextPage_skips_other_events
              (requestSeqRange [ {| seq := 7; body := EvtOther "identity" |};
                                 {| seq := 9;
                                    body := EvtAccount {| acc_did := bob;
                                                          acc_status := Some Takendown |} |} ])
              start
              [ {| seq := 7; body := EvtOther "identity" |};
                {| seq := 9;
                   body := EvtAccount {| acc_did := bob;
                                         acc_status := Some Takendown |} |} ])
    as (lastEvt & Hlast & Hload).
  - reflexivity.
  - repeat constructor. discriminate.
  - discriminate.
  - injection Hlast as <-. exact Hload.
Defined.

End CasesFacts.
